(** * DataTable: sort engine, selection tracker and presentation states

    A shallow embedding of [src/components/DataTable/DataTable.tsx]:
    the comparator and the memoised [sortedData], the three handlers
    [handleSort], [handleSelectAll] and [handleSelectRow], and the part of
    the render function that chooses between the loading, empty and
    populated trees.

    Host code (the JavaScript operators and [Array.prototype.sort]) is
    modelled in the modules [JS] and [Host]; everything after them follows
    the component line by line.  The callers of the table ([App.tsx] and
    the stories that keep the selected rows) and the text input
    [InputField] are embedded after it. *)

From Stdlib Require Import ZArith String Ascii DecimalString.
From stdpp Require Import gmap strings list sorting.

(** ** JavaScript values and operators *)

Module JS.

(** Numbers are the integers together with [NaN]: the fragment of the
    doubles in which the component's comparisons and [String] are exact. *)
Inductive Num :=
| NaN
| Fin (z : Z).

(** The primitive values a row field can hold. *)
Inductive Value :=
| Undefined
| Null
| Bool (b : bool)
| Number (n : Num)
| Str (s : string).

#[global] Instance Num_eq_dec : EqDecision Num.
Proof. solve_decision. Defined.

#[global] Instance Value_eq_dec : EqDecision Value.
Proof. solve_decision. Defined.

(** [ToBoolean]: the falsy values are [undefined], [null], [false], [0],
    [NaN] and the empty string. *)
Definition ToBoolean (v : Value) : bool :=
  match v with
  | Undefined | Null => false
  | Bool b => b
  | Number NaN => false
  | Number (Fin z) => negb (z =? 0)%Z
  | Str s => negb (String.eqb s "")
  end.

(** [x || y] yields [x] when [x] is truthy and [y] otherwise. *)
Definition or (x y : Value) : Value :=
  if ToBoolean x then x else y.

(** [String(v)] on primitives; an integer prints in decimal, as [String]
    prints it below [10^21]. *)
Definition ToString (v : Value) : string :=
  match v with
  | Undefined => "undefined"
  | Null => "null"
  | Bool true => "true"
  | Bool false => "false"
  | Number NaN => "NaN"
  | Number (Fin z) => NilZero.string_of_int (Z.to_int z)
  | Str s => s
  end.

(** White space that [StringToNumber] strips: TAB, LF, VT, FF, CR, SP
    and NBSP. *)
Definition isStrWhiteSpaceChar (c : ascii) : bool :=
  bool_decide (nat_of_ascii c ∈ [9; 10; 11; 12; 13; 32; 160]).

Fixpoint trimStart (cs : list ascii) : list ascii :=
  match cs with
  | c :: cs' => if isStrWhiteSpaceChar c then trimStart cs' else cs
  | [] => []
  end.

Definition trim (cs : list ascii) : list ascii :=
  reverse (trimStart (reverse (trimStart cs))).

Definition digitValue (c : ascii) : option Z :=
  let n := nat_of_ascii c in
  if bool_decide (48 ≤ n ≤ 57) then Some (Z.of_nat (n - 48)) else None.

Fixpoint decimalDigits (acc : Z) (cs : list ascii) : option Z :=
  match cs with
  | [] => Some acc
  | c :: cs' =>
      match digitValue c with
      | Some d => decimalDigits (10 * acc + d)%Z cs'
      | None => None
      end
  end.

Definition unsignedDecimal (cs : list ascii) : Num :=
  match cs with
  | [] => NaN
  | _ :: _ => from_option Fin NaN (decimalDigits 0 cs)
  end.

Definition negate (n : Num) : Num :=
  match n with
  | NaN => NaN
  | Fin z => Fin (- z)
  end.

(** [StringToNumber] on the integer fragment: the trimmed text is empty
    (giving 0) or an optionally signed run of decimal digits.  Literals
    that denote no integer (fractions, exponents, radix prefixes,
    [Infinity]) have no image in [Num] and are sent to [NaN]. *)
Definition StringToNumber (s : string) : Num :=
  match trim (list_ascii_of_string s) with
  | [] => Fin 0
  | "+"%char :: cs => unsignedDecimal cs
  | "-"%char :: cs => negate (unsignedDecimal cs)
  | cs => unsignedDecimal cs
  end.

Definition ToNumber (v : Value) : Num :=
  match v with
  | Undefined => NaN
  | Null => Fin 0
  | Bool true => Fin 1
  | Bool false => Fin 0
  | Number n => n
  | Str s => StringToNumber s
  end.

(** [x < y]: two strings are compared by code units, every other pair is
    compared as numbers, and a comparison that involves [NaN] is false. *)
Definition lessThan (x y : Value) : bool :=
  match x, y with
  | Str sx, Str sy => String.ltb sx sy
  | _, _ =>
      match ToNumber x, ToNumber y with
      | Fin nx, Fin ny => (nx <? ny)%Z
      | _, _ => false
      end
  end.

(** [x > y] is [y < x] on primitives. *)
Definition greaterThan (x y : Value) : bool := lessThan y x.

End JS.

(** ** The host's [Array.prototype.sort] *)

Module Host.

Section ArraySort.
Context {A : Type}.
Variable comparefn : A → A → Z.

(** ECMAScript fixes the result of [sort] only when [comparefn] is a
    consistent comparison function for the elements sorted; otherwise the
    order is implementation-defined.  The five conditions of the
    standard, for the elements satisfying [S]: *)
Record Consistent (S : A → Prop) : Prop := {
  cf_refl : ∀ a, S a → comparefn a a = 0%Z;
  cf_sym : ∀ a b, S a → S b → comparefn a b = 0%Z → comparefn b a = 0%Z;
  cf_trans_eq : ∀ a b c, S a → S b → S c →
    comparefn a b = 0%Z → comparefn b c = 0%Z → comparefn a c = 0%Z;
  cf_trans_lt : ∀ a b c, S a → S b → S c →
    (comparefn a b < 0)%Z → (comparefn b c < 0)%Z → (comparefn a c < 0)%Z;
  cf_trans_gt : ∀ a b c, S a → S b → S c →
    (comparefn a b > 0)%Z → (comparefn b c > 0)%Z → (comparefn a c > 0)%Z
}.

(** [ordered a b]: [b] does not sort before [a]; a sorted array is
    [StronglySorted ordered].  [tie a b]: the two compare equal. *)
Definition ordered (a b : A) : Prop := (0 ≤ comparefn b a)%Z.

Definition tie (a b : A) : Prop := comparefn a b = 0%Z.

(** [descending a b]: [b] sorts strictly before [a], the order of
    neighbours in a run that [CountAndMakeRun] reverses. *)
Definition descending (a b : A) : Prop := (comparefn b a < 0)%Z.

(** The conditions of [Consistent], triple by triple over a list: a form
    that can be evaluated on given data. *)
Definition ConsistentOn (l : list A) : Prop :=
  Forall (λ a,
    comparefn a a = 0%Z ∧
    Forall (λ b,
      (comparefn a b = 0%Z → comparefn b a = 0%Z) ∧
      Forall (λ c,
        (comparefn a b = 0%Z → comparefn b c = 0%Z → comparefn a c = 0%Z) ∧
        ((comparefn a b < 0)%Z → (comparefn b c < 0)%Z → (comparefn a c < 0)%Z) ∧
        ((comparefn a b > 0)%Z → (comparefn b c > 0)%Z → (comparefn a c > 0)%Z))
      l) l) l.

#[global] Instance ConsistentOn_dec l : Decision (ConsistentOn l).
Proof. unfold ConsistentOn. apply _. Defined.

#[global] Instance ordered_dec a b : Decision (ordered a b).
Proof. unfold ordered. apply _. Defined.

#[global] Instance tie_dec a b : Decision (tie a b).
Proof. unfold tie. apply _. Defined.

(** The algorithm is the one V8 runs on an array of fewer than 64
    elements: find the run that starts the array, reverse it when it is
    strictly descending, then insert the remaining elements one by one at
    the point found by binary search.  (On longer arrays V8 merges several
    such runs; for a consistent [comparefn] every conforming host returns
    the same array, the stable sort.) *)

(** The loop of [CountAndMakeRun]: extend the run while the order of
    neighbours keeps its direction. *)
Fixpoint extendRun (isDescending : bool) (previousElement : A)
    (rest : list A) : list A * list A :=
  match rest with
  | [] => ([], [])
  | currentElement :: rest' =>
      let order := comparefn currentElement previousElement in
      if (if isDescending then (0 <=? order)%Z else (order <? 0)%Z)
      then ([], rest)
      else
        let '(run, tail) := extendRun isDescending currentElement rest' in
        (currentElement :: run, tail)
  end.

Definition CountAndMakeRun (workArray : list A) : list A * list A :=
  match workArray with
  | [] => ([], [])
  | [x] => ([x], [])
  | elementHigh :: elementLow :: rest =>
      let order := comparefn elementLow elementHigh in
      let isDescending := (order <? 0)%Z in
      let '(run, tail) := extendRun isDescending elementLow rest in
      let whole := elementHigh :: elementLow :: run in
      (if isDescending then reverse whole else whole, tail)
  end.

(** The binary search of [BinaryInsertionSort]; [right - left] shrinks at
    every step, so [fuel = right - left] is enough. *)
Fixpoint findInsertionPoint (fuel : nat) (pivot : A) (workArray : list A)
    (left right : nat) : nat :=
  match fuel with
  | O => left
  | S fuel' =>
      if decide (left < right) then
        let mid := left + (right - left) / 2 in
        match workArray !! mid with
        | Some element =>
            if (comparefn pivot element <? 0)%Z
            then findInsertionPoint fuel' pivot workArray left mid
            else findInsertionPoint fuel' pivot workArray (S mid) right
        | None => left
        end
      else left
  end.

Definition insertPivot (sorted : list A) (pivot : A) : list A :=
  let left :=
    findInsertionPoint (length sorted) pivot sorted 0 (length sorted) in
  take left sorted ++ pivot :: drop left sorted.

Definition BinaryInsertionSort (sorted rest : list A) : list A :=
  foldl insertPivot sorted rest.

Definition array_sort (workArray : list A) : list A :=
  let '(run, rest) := CountAndMakeRun workArray in
  BinaryInsertionSort run rest.

End ArraySort.

(** [Array.prototype.filter] with the callback's [(element, index)]
    arguments. *)
Fixpoint filterFrom {A : Type} (predicate : A → nat → bool) (index : nat)
    (array : list A) : list A :=
  match array with
  | [] => []
  | element :: array' =>
      if predicate element index
      then element :: filterFrom predicate (S index) array'
      else filterFrom predicate (S index) array'
  end.

Definition filterWithIndex {A : Type} (predicate : A → nat → bool)
    (array : list A) : list A :=
  filterFrom predicate 0 array.

End Host.

(** ** The component *)

(** A row is a record from field names to values; [row[key]] of a field
    the row does not have is [undefined].  Only the row's own fields are
    modelled, not what it inherits from [Object.prototype]. *)
Abbreviation Row := (gmap string JS.Value).

Definition get (row : Row) (key : string) : JS.Value :=
  default JS.Undefined (row !! key).

(** What a custom cell renderer returns.  Class names and the SVG icons of
    the source are left out of the model. *)
Inductive ReactNode :=
| Text (s : string)
| Element (tag : string) (child : ReactNode).

Module Column.
Record t := mk {
  key : string;
  title : string;
  sortable : option bool;
  width : option string;
  render : option (JS.Value → Row → ReactNode)
}.
End Column.

Inductive Direction := asc | desc.

#[global] Instance Direction_eq_dec : EqDecision Direction.
Proof. solve_decision. Defined.

Module SortConfig.
Record t := mk {
  key : option string;
  direction : Direction
}.
End SortConfig.

(** Keys are field names.  [!sortConfig.key]: the key is [null] or the
    empty string. *)
Definition keyIsFalsy (key : option string) : bool :=
  match key with
  | None => true
  | Some k => negb (JS.ToBoolean (JS.Str k))
  end.

(** The comparator handed to [sort] (lines 22-33). *)
Definition compareRows (key : string) (direction : Direction) (a b : Row) : Z :=
  let aValue := get a key in
  let bValue := get b key in
  if JS.lessThan aValue bValue then
    (if decide (direction = asc) then -1 else 1)%Z
  else if JS.greaterThan aValue bValue then
    (if decide (direction = asc) then 1 else -1)%Z
  else 0%Z.

Record State := mkState {
  selectedRows : gset nat;
  sortConfig : SortConfig.t
}.

Definition initialState : State :=
  {| selectedRows := ∅;
     sortConfig := {| SortConfig.key := None; SortConfig.direction := asc |} |}.

Section Component.
(** [W] is the caller's world, the only thing [onRowSelect] can change. *)
Context {W : Type}.

(** The props, optional ones as options; [className] only decorates the
    wrapper and is left out. *)
Record DataTableProps := mkProps {
  data : list Row;
  columns : list Column.t;
  loading : option bool;
  selectable : option bool;
  onRowSelect : option (list Row → W → W);
  emptyMessage : option string
}.

Variable props : DataTableProps.

(** [onRowSelect?.(rows)] *)
Definition callOnRowSelect (rows : list Row) (w : W) : W :=
  match onRowSelect props with
  | Some callback => callback rows w
  | None => w
  end.

Definition sortedData (st : State) : list Row :=
  let config := sortConfig st in
  if keyIsFalsy (SortConfig.key config) then data props
  else
    match SortConfig.key config with
    | Some key =>
        Host.array_sort (compareRows key (SortConfig.direction config))
          (data props)
    | None => data props
    end.

Definition handleSort (key : string) (st : State) : State :=
  let prev := sortConfig st in
  {| selectedRows := selectedRows st;
     sortConfig :=
       {| SortConfig.key := Some key;
          SortConfig.direction :=
            if bool_decide (SortConfig.key prev = Some key)
               && bool_decide (SortConfig.direction prev = asc)
            then desc else asc |} |}.

Definition handleSelectAll (checked : bool) (st : State) (w : W) : State * W :=
  if checked then
    let allIndices : gset nat := list_to_set (imap (λ index _, index) (data props)) in
    ({| selectedRows := allIndices; sortConfig := sortConfig st |},
     callOnRowSelect (data props) w)
  else
    ({| selectedRows := ∅; sortConfig := sortConfig st |},
     callOnRowSelect [] w).

Definition handleSelectRow (index : nat) (checked : bool) (st : State) (w : W)
    : State * W :=
  let newSelectedRows : gset nat :=
    if checked then {[index]} ∪ selectedRows st
    else selectedRows st ∖ {[index]} in
  let selectedData :=
    Host.filterWithIndex (λ _ i, bool_decide (i ∈ newSelectedRows)) (data props) in
  ({| selectedRows := newSelectedRows; sortConfig := sortConfig st |},
   callOnRowSelect selectedData w).

(** *** The render tree *)

Inductive SortIcon := Unsorted | Ascending | Descending.

Definition getSortIcon (st : State) (key : string) : SortIcon :=
  if bool_decide (SortConfig.key (sortConfig st) ≠ Some key) then Unsorted
  else if bool_decide (SortConfig.direction (sortConfig st) = asc) then Ascending
  else Descending.

Record HeaderCell := mkHeaderCell {
  headerTitle : string;
  headerIcon : option SortIcon
}.

Record BodyRow := mkBodyRow {
  rowKey : nat;
  rowHighlighted : bool;
  rowCheckbox : option bool;
  rowCells : list ReactNode
}.

Inductive View :=
| LoadingView (placeholders : list nat)
| EmptyView (message : string)
| TableView (selectAllCheckbox : option bool) (header : list HeaderCell)
    (body : list BodyRow).

Definition isTrue (flag : option bool) : bool := default false flag.

(** Lines 168-174: the custom renderer when the column has one, else
    [String(row[column.key] || '')]. *)
Definition renderCell (row : Row) (column : Column.t) : ReactNode :=
  match Column.render column with
  | Some render => render (get row (Column.key column)) row
  | None => Text (JS.ToString (JS.or (get row (Column.key column)) (JS.Str "")))
  end.

Definition renderHeaderCell (st : State) (column : Column.t) : HeaderCell :=
  {| headerTitle := Column.title column;
     headerIcon :=
       if isTrue (Column.sortable column)
       then Some (getSortIcon st (Column.key column)) else None |}.

Definition renderRow (st : State) (index : nat) (row : Row) : BodyRow :=
  {| rowKey := index;
     rowHighlighted := bool_decide (index ∈ selectedRows st);
     rowCheckbox :=
       if isTrue (selectable props)
       then Some (bool_decide (index ∈ selectedRows st)) else None;
     rowCells := map (renderCell row) (columns props) |}.

Definition render (st : State) : View :=
  if isTrue (loading props) then
    LoadingView (imap (λ i _, i) (replicate 5 JS.Undefined))
  else if bool_decide (length (data props) = 0) then
    EmptyView (default "No data available" (emptyMessage props))
  else
    TableView
      (if isTrue (selectable props)
       then Some (bool_decide (size (selectedRows st) = length (data props))
                  && bool_decide (0 < length (data props)))
       else None)
      (map (renderHeaderCell st) (columns props))
      (imap (renderRow st) (sortedData st)).

(** *** Interactions *)

(** The handlers the populated tree attaches: a click on the header of the
    [column]-th column, the select-all checkbox, and the checkbox of the
    [index]-th displayed row. *)
Inductive Event :=
| HeaderClick (column : nat)
| SelectAllChange (checked : bool)
| RowCheckboxChange (index : nat) (checked : bool).

Definition dispatch (event : Event) (st : State) (w : W) : State * W :=
  match render st with
  | TableView _ _ _ =>
      match event with
      | HeaderClick i =>
          match columns props !! i with
          | Some column =>
              if isTrue (Column.sortable column)
              then (handleSort (Column.key column) st, w)
              else (st, w)
          | None => (st, w)
          end
      | SelectAllChange checked =>
          if isTrue (selectable props) then handleSelectAll checked st w
          else (st, w)
      | RowCheckboxChange index checked =>
          if isTrue (selectable props)
             && bool_decide (index < length (sortedData st))
          then handleSelectRow index checked st w
          else (st, w)
      end
  | _ => (st, w)
  end.

End Component.

Arguments DataTableProps : clear implicits.

(** ** Notions the properties are stated with *)

(** The occurrences of [a] and [b] come in the same order in [output] as in
    [input]. *)
Definition keepsOrder (a b : Row) (input output : list Row) : Prop :=
  filter (λ r, r = a ∨ r = b) output = filter (λ r, r = a ∨ r = b) input.

(** Stability: any two rows of the input that compare equal keep their
    relative order. *)
Definition stable (compare : Row → Row → Z) (input output : list Row) : Prop :=
  ∀ a b, a ∈ input → b ∈ input → compare a b = 0%Z → keepsOrder a b input output.


(** The values of the column [key], row by row. *)
Definition columnValues (key : string) (rows : list Row) : list JS.Value :=
  map (λ row, get row key) rows.

(** A state whose sort configuration is the given one. *)
Definition sortedBy (key : option string) (direction : Direction)
    (selected : gset nat) : State :=
  {| selectedRows := selected;
     sortConfig := {| SortConfig.key := key; SortConfig.direction := direction |} |}.

Definition toggle (direction : Direction) : Direction :=
  match direction with
  | asc => desc
  | desc => asc
  end.

(** A callback that appends every payload it receives to a log. *)
Definition recordPayload (rows : list Row) (log : list (list Row))
    : list (list Row) :=
  log ++ [rows].

(** [handleSelectRow position true] for the positions of [order], one
    interaction after the other. *)
Definition selectEach {W : Type} (props : DataTableProps W) (order : list nat)
    (st : State) (w : W) : State * W :=
  foldl (λ sw position, handleSelectRow props position true sw.1 sw.2)
    (st, w) order.

(** Props with data only: no columns, no flags, no callback. *)
Definition dataOnly {W : Type} (rows : list Row) : DataTableProps W :=
  {| data := rows; columns := []; loading := None; selectable := None;
     onRowSelect := None; emptyMessage := None |}.

(** The sort engine as a function of the data and the configuration:
    [sortedData] of a table that shows [rows] with the configuration
    [config]. *)
Definition sortEngine (rows : list Row) (config : SortConfig.t) : list Row :=
  sortedData (W := unit) (dataOnly rows)
    {| selectedRows := ∅; sortConfig := config |}.

(** *** Sample data *)

Definition num (z : Z) : JS.Value := JS.Number (JS.Fin z).

Definition record (fields : list (string * JS.Value)) : Row :=
  list_to_map fields.

(** Seven products; the fourth has no [stock] field, the fifth and the
    seventh have the same stock. *)
Definition products : list Row :=
  [ record [("id", num 1); ("stock", num 5)];
    record [("id", num 2); ("stock", num 7)];
    record [("id", num 3); ("stock", num 9)];
    record [("id", num 4)];
    record [("id", num 5); ("stock", num 1)];
    record [("id", num 6); ("stock", num 0)];
    record [("id", num 7); ("stock", num 1)] ].


(** The users of the scenario of the specification, and a third. *)
Definition users : list Row :=
  [ record [("id", num 1); ("name", JS.Str "B")];
    record [("id", num 2); ("name", JS.Str "A")];
    record [("id", num 3); ("name", JS.Str "C")] ].

(** A selectable table of the users whose callback records its payloads. *)
Definition nameColumn : Column.t :=
  Column.mk "name" "Name" (Some true) None None.

Definition userTable : DataTableProps (list (list Row)) :=
  mkProps users [nameColumn] None (Some true) (Some recordPayload) None.

Definition staff : list Row :=
  [ record [("id", num 1); ("role", JS.Str "Admin")];
    record [("id", num 2); ("role", JS.Str "User")];
    record [("id", num 3); ("role", JS.Str "Admin")];
    record [("id", num 4); ("role", JS.Str "Editor")] ].



(** ** Further notions: order, sessions and the callers of the table *)

(** The table's state and events, under names that stay free inside the
    modules of its callers. *)
Abbreviation TableState := State.
Abbreviation TableEvent := Event.
Abbreviation initialTable := initialState.

(** The rows come in the order of the direction: going down the list the
    value at [key] never gets smaller (ascending) or larger (descending)
    by [<]. *)
Definition inOrder (key : string) (direction : Direction) (rows : list Row) : Prop :=
  ∀ i j a b, i < j → rows !! i = Some a → rows !! j = Some b →
    match direction with
    | asc => JS.lessThan (get b key) (get a key) = false
    | desc => JS.lessThan (get a key) (get b key) = false
    end.

Definition isString (v : JS.Value) : bool :=
  match v with
  | JS.Str _ => true
  | _ => false
  end.

(** A value other than a string whose number is not [NaN]: a number, a
    boolean or [null]. *)
Definition isNumeric (v : JS.Value) : bool :=
  match v with
  | JS.Str _ => false
  | _ => match JS.ToNumber v with JS.Fin _ => true | JS.NaN => false end
  end.

(** The column [key] holds strings only, or numeric values only. *)
Definition homogeneous (key : string) (rows : list Row) : Prop :=
  Forall (λ row, isString (get row key) = true) rows ∨
  Forall (λ row, isNumeric (get row key) = true) rows.

(** [<] on two numbers. *)
Definition numberLessThan (n m : JS.Num) : bool :=
  match n, m with
  | JS.Fin a, JS.Fin b => (a <? b)%Z
  | _, _ => false
  end.

(** The events of a session, handled one after the other. *)
Definition dispatchAll {W : Type} (props : DataTableProps W) (events : list Event)
    (st : State) (w : W) : State * W :=
  foldl (λ sw event, dispatch props event sw.1 sw.2) (st, w) events.

(** Every selected position is a position of the data. *)
Definition validSelection {W : Type} (props : DataTableProps W) (st : State) : Prop :=
  ∀ i, i ∈ selectedRows st → i < length (data props).

(** The rows at the selected positions, as [handleSelectRow] computes its
    [selectedData] (line 63). *)
Definition selectedData {W : Type} (props : DataTableProps W) (st : State) : list Row :=
  Host.filterWithIndex (λ _ i, bool_decide (i ∈ selectedRows st)) (data props).

(** ** The demo application, [App.tsx] *)

Module App.

Definition user (id : Z) (name email role status lastLogin : string) : Row :=
  record [("id", num id); ("name", JS.Str name); ("email", JS.Str email);
          ("role", JS.Str role); ("status", JS.Str status);
          ("lastLogin", JS.Str lastLogin)].

Definition sampleUsers : list Row :=
  [ user 1 "John Doe" "john@example.com" "Admin" "active" "2024-01-15";
    user 2 "Jane Smith" "jane@example.com" "User" "active" "2024-01-14";
    user 3 "Bob Johnson" "bob@example.com" "Editor" "inactive" "2024-01-10";
    user 4 "Alice Brown" "alice@example.com" "User" "active" "2024-01-13";
    user 5 "Charlie Wilson" "charlie@example.com" "Admin" "inactive" "2024-01-08" ].

(** What React shows for a value used as a child: the text of a string or
    a number, and nothing for a boolean, [null] or [undefined]. *)
Definition childText (value : JS.Value) : string :=
  match value with
  | JS.Str s => s
  | JS.Number _ => JS.ToString value
  | _ => ""
  end.

Definition userColumns : list Column.t :=
  [ Column.mk "name" "Name" (Some true) None None;
    Column.mk "email" "Email" (Some true) None None;
    Column.mk "role" "Role" (Some true) None None;
    Column.mk "status" "Status" (Some true) None
      (Some (λ value _, Element "span" (Text (childText value))));
    Column.mk "lastLogin" "Last Login" (Some true) None None ].

(** The state of [App] and, with it, the state of the table it mounts. *)
Record State := mkState {
  formData : gmap string string;
  selectedUsers : list Row;
  table : TableState
}.

Definition initialState : State :=
  {| formData := {[ "name" := ""; "email" := ""; "password" := "" ]};
     selectedUsers := [];
     table := initialTable |}.

(** [setSelectedUsers], as the table's callback: the world it changes is
    the [selectedUsers] cell. *)
Definition setSelectedUsers (rows : list Row) (_ : list Row) : list Row := rows.

Definition tableProps : DataTableProps (list Row) :=
  mkProps sampleUsers userColumns None (Some true) (Some setSelectedUsers) None.

(** [handleInputChange(field)] on an event whose target holds [value]. *)
Definition handleInputChange (field value : string) (s : State) : State :=
  {| formData := <[field := value]> (formData s);
     selectedUsers := selectedUsers s;
     table := table s |}.

Inductive Event :=
| InputChange (field value : string)
| Table (event : TableEvent).

Definition step (s : State) (event : Event) : State :=
  match event with
  | InputChange field value => handleInputChange field value s
  | Table e =>
      let '(t, selected) := dispatch tableProps e (table s) (selectedUsers s) in
      {| formData := formData s; selectedUsers := selected; table := t |}
  end.

Definition run (events : list Event) : State := foldl step initialState events.

(** [selectedUsers.length > 0 && "{selectedUsers.length} user(s)
    selected"]: the count the banner shows, when it shows. *)
Definition banner (s : State) : option nat :=
  if bool_decide (0 < length (selectedUsers s))
  then Some (length (selectedUsers s)) else None.

End App.

(** ** The story [InteractiveExample], [DataTable.stories.tsx] *)

Module InteractiveExample.

(** The story keeps the users and the selected users; the table it mounts
    keeps its own state while the story renders again with other data. *)
Record State := mkState {
  users : list Row;
  selectedUsers : list Row;
  table : TableState
}.

Definition initialState : State :=
  {| users := App.sampleUsers; selectedUsers := [];
     table := initialTable |}.

Definition tableProps (s : State) : DataTableProps (list Row) :=
  mkProps (users s) App.userColumns None (Some true)
    (Some App.setSelectedUsers) None.

(** [handleDeleteSelected]: [selectedIds] is a [Set], used for membership
    only. *)
Definition handleDeleteSelected (s : State) : State :=
  let selectedIds := map (λ user, get user "id") (selectedUsers s) in
  {| users :=
       Host.filterWithIndex
         (λ user _, negb (bool_decide (get user "id" ∈ selectedIds))) (users s);
     selectedUsers := [];
     table := table s |}.

(** John Doe, at position 0, is ticked. *)
Definition johnTicked : State :=
  {| users := App.sampleUsers;
     selectedUsers :=
       [App.user 1 "John Doe" "john@example.com" "Admin" "active" "2024-01-15"];
     table := sortedBy None asc {[0]} |}.

End InteractiveExample.

(** ** The text input, [InputField] *)

Module InputField.

(** A text prop counts as given when it is a non-empty string. *)
Definition given (text : option string) : bool :=
  match text with
  | Some s => JS.ToBoolean (JS.Str s)
  | None => false
  end.

Record State := mkState {
  showPassword : bool;
  isFocused : bool
}.

Definition initialState : State :=
  {| showPassword := false; isFocused := false |}.

Definition handlePasswordToggle (st : State) : State :=
  {| showPassword := negb (showPassword st); isFocused := isFocused st |}.

Section InputField.
(** [W] is the caller's world, the only thing [onChange] can change.  A
    change event is modelled by the [value] of its target.  The style
    props ([variant], [size], [className]) and the props passed through to
    the input are left out. *)
Context {W : Type}.

Record Props := mkProps {
  value : option string;
  onChange : option (string → W → W);
  label : option string;
  placeholder : option string;
  helperText : option string;
  errorMessage : option string;
  disabled : option bool;
  invalid : option bool;
  loading : option bool;
  type : option string;
  clearable : option bool;
  showPasswordToggle : option bool
}.

Variable props : Props.

Definition valueOf : string := default "" (value props).

Definition typeOf : string := default "text" (type props).

Definition inputType (st : State) : string :=
  if String.eqb typeOf "password" && isTrue (showPasswordToggle props)
  then (if showPassword st then "text" else "password")
  else typeOf.

Definition handleClear (w : W) : W :=
  match onChange props with
  | Some callback => callback "" w
  | None => w
  end.

(** What the field shows. *)
Record View := mkView {
  viewLabel : option string;
  viewType : string;
  viewValue : string;
  viewDisabled : bool;
  viewFocused : bool;
  viewSpinner : bool;
  viewClearButton : bool;
  viewPasswordToggle : option string;
  viewFooter : option (string * bool)
}.

Definition render (st : State) : View :=
  {| viewLabel := if given (label props) then label props else None;
     viewType := inputType st;
     viewValue := valueOf;
     viewDisabled := isTrue (disabled props) || isTrue (loading props);
     viewFocused :=
       isFocused st && negb (isTrue (invalid props))
       && negb (isTrue (disabled props));
     viewSpinner := isTrue (loading props);
     viewClearButton :=
       isTrue (clearable props) && given (value props)
       && negb (isTrue (loading props)) && negb (isTrue (disabled props));
     viewPasswordToggle :=
       if isTrue (showPasswordToggle props) && String.eqb typeOf "password"
          && negb (isTrue (loading props)) && negb (isTrue (disabled props))
       then Some (if showPassword st then "Hide password" else "Show password")
       else None;
     viewFooter :=
       if given (helperText props) || given (errorMessage props)
       then Some (if given (errorMessage props)
                  then default "" (errorMessage props)
                  else default "" (helperText props),
                  given (errorMessage props))
       else None |}.

End InputField.

Arguments Props : clear implicits.

(** [InputFieldWithState]: the field holds its own text, [value] is that
    text and [onChange] replaces it. *)
Definition withState (args : Props string) (text : string) : Props string :=
  {| value := Some text;
     onChange := Some (λ text' _, text');
     label := label args; placeholder := placeholder args;
     helperText := helperText args; errorMessage := errorMessage args;
     disabled := disabled args; invalid := invalid args;
     loading := loading args; type := type args;
     clearable := clearable args;
     showPasswordToggle := showPasswordToggle args |}.

End InputField.

(** [String.prototype.includes]. *)
Fixpoint includes (s search : string) : bool :=
  String.prefix search s ||
  match s with
  | EmptyString => false
  | String _ s' => includes s' search
  end.

Module AppForm.

Definition emailOf (s : App.State) : option string := App.formData s !! "email".

(** [formData.email && !formData.email.includes('@')] as a condition. *)
Definition emailInvalid (s : App.State) : bool :=
  InputField.given (emailOf s) && negb (includes (default "" (emailOf s)) "@").

(** The props of the email field of the registration form. *)
Definition emailField (s : App.State) : InputField.Props App.State :=
  {| InputField.value := emailOf s;
     InputField.onChange := Some (App.handleInputChange "email");
     InputField.label := Some "Email Address";
     InputField.placeholder := Some "Enter your email";
     InputField.helperText := None;
     InputField.errorMessage :=
       Some (if emailInvalid s then "Please enter a valid email" else "");
     InputField.disabled := None;
     InputField.invalid := Some (emailInvalid s);
     InputField.loading := None;
     InputField.type := Some "email";
     InputField.clearable := Some true;
     InputField.showPasswordToggle := None |}.

End AppForm.

(** * Properties *)

(** ** The host sort on a consistent comparator *)

Lemma filter_none {A} (P : A → Prop) `{∀ x, Decision (P x)} (l : list A) :
  Forall (λ x, ¬ P x) l → filter P l = [].
Proof.
  induction 1 as [|x l Hx _ IH]; [done|]. by rewrite filter_cons_False.
Qed.

Section ArraySortFacts.
Context {A : Type} (comparefn : A → A → Z) (dom : A → Prop).
Hypothesis HC : Host.Consistent comparefn dom.

Local Abbreviation cmp := comparefn.
Local Abbreviation ordered := (Host.ordered comparefn).
Local Abbreviation tie := (Host.tie comparefn).
Local Abbreviation descending := (Host.descending comparefn).

Lemma cf_lt_gt a b : dom a → dom b → (cmp a b < 0)%Z → (cmp b a > 0)%Z.
Proof.
  intros Ha Hb Hab.
  destruct (Z.lt_trichotomy (cmp b a) 0) as [Hba | [Hba | Hba]]; [| | lia].
  - pose proof (Host.cf_trans_lt _ _ HC a b a Ha Hb Ha Hab Hba) as Haa.
    rewrite (Host.cf_refl _ _ HC a Ha) in Haa. lia.
  - apply (Host.cf_sym _ _ HC b a Hb Ha) in Hba. lia.
Qed.

Lemma cf_gt_lt a b : dom a → dom b → (cmp a b > 0)%Z → (cmp b a < 0)%Z.
Proof.
  intros Ha Hb Hab.
  destruct (Z.lt_trichotomy (cmp b a) 0) as [Hba | [Hba | Hba]]; [done | |].
  - apply (Host.cf_sym _ _ HC b a Hb Ha) in Hba. lia.
  - assert (cmp a a > 0)%Z as Haa
      by (apply (Host.cf_trans_gt _ _ HC a b a); auto; lia).
    rewrite (Host.cf_refl _ _ HC a Ha) in Haa. lia.
Qed.

Lemma cf_lt_tie a b c :
  dom a → dom b → dom c → (cmp a b < 0)%Z → cmp b c = 0%Z → (cmp a c < 0)%Z.
Proof.
  intros Ha Hb Hc Hab Hbc.
  destruct (Z.lt_trichotomy (cmp a c) 0) as [Hac | [Hac | Hac]]; [done | |].
  - apply (Host.cf_sym _ _ HC b c Hb Hc) in Hbc.
    pose proof (Host.cf_trans_eq _ _ HC a c b Ha Hc Hb Hac Hbc). lia.
  - assert (cmp b a > 0)%Z as Hba by (by apply cf_lt_gt).
    assert (cmp b c > 0)%Z
      by (apply (Host.cf_trans_gt _ _ HC b a c); auto; lia).
    lia.
Qed.

Lemma cf_tie_lt a b c :
  dom a → dom b → dom c → cmp a b = 0%Z → (cmp b c < 0)%Z → (cmp a c < 0)%Z.
Proof.
  intros Ha Hb Hc Hab Hbc.
  destruct (Z.lt_trichotomy (cmp a c) 0) as [Hac | [Hac | Hac]]; [done | |].
  - apply (Host.cf_sym _ _ HC a b Ha Hb) in Hab.
    pose proof (Host.cf_trans_eq _ _ HC b a c Hb Ha Hc Hab Hac). lia.
  - assert (cmp c b > 0)%Z as Hcb by (by apply cf_lt_gt).
    assert (cmp a b > 0)%Z
      by (apply (Host.cf_trans_gt _ _ HC a c b); auto; lia).
    lia.
Qed.

(** [pivot < a] and [a] not after [b] give [pivot < b]. *)
Lemma cf_lt_ordered p a b :
  dom p → dom a → dom b → (cmp p a < 0)%Z → ordered a b → (cmp p b < 0)%Z.
Proof.
  unfold Host.ordered. intros Hp Ha Hb Hpa Hab.
  destruct (decide (cmp b a = 0%Z)) as [Hba | Hba].
  - apply (cf_lt_tie p a b); auto. by apply (Host.cf_sym _ _ HC b a).
  - apply (Host.cf_trans_lt _ _ HC p a b); auto.
    apply cf_gt_lt; auto. lia.
Qed.

Lemma ordered_trans a b c :
  dom a → dom b → dom c → ordered a b → ordered b c → ordered a c.
Proof.
  unfold Host.ordered. intros Ha Hb Hc Hab Hbc.
  destruct (Z.lt_trichotomy (cmp c a) 0) as [Hca | [Hca | Hca]]; [| lia..].
  assert (cmp c b < 0)%Z by (by apply (cf_lt_ordered c a b)). lia.
Qed.


(** *** Binary insertion *)

Lemma findInsertionPoint_bounds fuel pivot l left right :
  left ≤ right →
  left ≤ Host.findInsertionPoint cmp fuel pivot l left right ≤ right.
Proof.
  revert left right. induction fuel as [|fuel IH]; intros left right Hlr; cbn [Host.findInsertionPoint].
  { lia. }
  case_decide as Hlt; [|lia].
  assert ((right - left) / 2 < right - left) by (apply Nat.div_lt; lia).
  destruct (l !! _) as [e|]; [|lia].
  destruct (_ <? _)%Z.
  - destruct (IH left (left + (right - left) / 2)); lia.
  - destruct (IH (S (left + (right - left) / 2)) right); lia.
Qed.

(** On a sorted array the search stops at the first element that sorts
    after the pivot. *)
Lemma findInsertionPoint_spec fuel pivot l left right :
  (∀ i j ei ej, i ≤ j → l !! i = Some ei → l !! j = Some ej →
     (cmp pivot ei < 0)%Z → (cmp pivot ej < 0)%Z) →
  right - left ≤ fuel → left ≤ right ≤ length l →
  (∀ i e, i < left → l !! i = Some e → (0 ≤ cmp pivot e)%Z) →
  (∀ e, l !! right = Some e → (cmp pivot e < 0)%Z) →
  let k := Host.findInsertionPoint cmp fuel pivot l left right in
  (∀ i e, i < k → l !! i = Some e → (0 ≤ cmp pivot e)%Z) ∧
  (∀ e, l !! k = Some e → (cmp pivot e < 0)%Z).
Proof.
  intros Hmono. revert left right.
  induction fuel as [|fuel IH]; intros left right Hfuel Hlr Hleft Hright;
    cbn [Host.findInsertionPoint].
  { assert (left = right) as -> by lia. auto. }
  case_decide as Hlt; [|assert (left = right) as -> by lia; auto].
  assert ((right - left) / 2 < right - left) by (apply Nat.div_lt; lia).
  set (mid := left + (right - left) / 2) in *.
  assert (left ≤ mid < right) by (unfold mid; lia).
  destruct (l !! mid) as [e|] eqn:Hmid.
  2:{ apply lookup_ge_None in Hmid. lia. }
  destruct (cmp pivot e <? 0)%Z eqn:Hord.
  - apply Z.ltb_lt in Hord. apply IH; [lia | lia | done |].
    intros e' He'. by simplify_eq.
  - apply Z.ltb_ge in Hord. apply IH; [lia | lia | | done].
    intros i ei Hi Hei.
    destruct (Z.lt_trichotomy (cmp pivot ei) 0) as [Hneg | ?]; [|lia].
    assert (i ≤ mid) as Hle by lia.
    pose proof (Hmono i mid ei e Hle Hei Hmid Hneg). lia.
Qed.

(** The array splits around the insertion point into the elements that do
    not sort after the pivot and those that do. *)
Lemma insertPivot_split l pivot :
  StronglySorted ordered l → Forall dom l → dom pivot →
  ∃ l1 l2, l = l1 ++ l2 ∧ Host.insertPivot cmp l pivot = l1 ++ pivot :: l2 ∧
    Forall (λ e, (0 ≤ cmp pivot e)%Z) l1 ∧
    Forall (λ e, (cmp pivot e < 0)%Z) l2.
Proof.
  intros Hsorted HS Hp. unfold Host.insertPivot.
  set (k := Host.findInsertionPoint cmp (length l) pivot l 0 (length l)).
  assert (Hmono : ∀ i j ei ej, i ≤ j → l !! i = Some ei → l !! j = Some ej →
            (cmp pivot ei < 0)%Z → (cmp pivot ej < 0)%Z).
  { intros i j ei ej Hij Hi Hj Hneg.
    destruct (decide (i = j)) as [->|Hne]; [by simplify_eq|].
    apply (cf_lt_ordered pivot ei ej); auto.
    - rewrite Forall_forall in HS. apply HS. by eapply list_elem_of_lookup_2.
    - rewrite Forall_forall in HS. apply HS. by eapply list_elem_of_lookup_2.
    - rewrite <-(take_drop_middle l i ei Hi) in Hsorted, Hj.
      apply StronglySorted_app_1_r, StronglySorted_inv in Hsorted as [_ Hall].
      rewrite Forall_forall in Hall. apply Hall.
      assert (length (take i l) = i) as Hlen
        by (apply length_take_le; apply lookup_lt_Some in Hi; lia).
      rewrite lookup_app_r in Hj by lia. rewrite Hlen in Hj.
      destruct (j - i) as [|d] eqn:Hd; [lia|]. simpl in Hj.
      by eapply list_elem_of_lookup_2. }
  destruct (findInsertionPoint_spec (length l) pivot l 0 (length l) Hmono)
    as [Hbefore Hat]; [lia | lia | lia | |].
  { intros e He. apply lookup_lt_Some in He. lia. }
  fold k in Hbefore, Hat.
  exists (take k l), (drop k l). split_and!.
  - by rewrite take_drop.
  - done.
  - apply Forall_forall. intros e He.
    apply list_elem_of_lookup in He as [i Hi].
    apply lookup_take_Some in Hi as [Hi Hlt]. eauto.
  - apply Forall_forall. intros e He.
    apply list_elem_of_lookup in He as [i Hi].
    rewrite lookup_drop in Hi.
    destruct (l !! k) as [ek|] eqn:Hk.
    2:{ apply lookup_ge_None in Hk. apply lookup_lt_Some in Hi. lia. }
    apply (Hmono k (k + i) ek e); auto. lia.
Qed.


Lemma insertPivot_Permutation l pivot : Host.insertPivot cmp l pivot ≡ₚ pivot :: l.
Proof.
  unfold Host.insertPivot. rewrite <-Permutation_middle.
  by rewrite take_drop.
Qed.

Lemma insertPivot_sorted l pivot :
  StronglySorted ordered l → Forall dom l → dom pivot →
  StronglySorted ordered (Host.insertPivot cmp l pivot).
Proof.
  intros Hsorted Hdom Hp.
  destruct (insertPivot_split l pivot) as (l1 & l2 & -> & -> & H1 & H2); auto.
  apply Forall_app in Hdom as [Hdom1 Hdom2].
  apply StronglySorted_app in Hsorted as (H12 & Hs1 & Hs2).
  rewrite Forall_forall in H1, H2, Hdom1, Hdom2.
  apply StronglySorted_app. split_and!; [|done|].
  - intros x1 x2 Hx1 [->|Hx2]%elem_of_cons; [by apply H1 | by apply H12].
  - constructor; [done|]. apply Forall_forall. intros e He.
    unfold Host.ordered. apply H2 in He as Hlt.
    apply cf_lt_gt in Hlt; auto. lia.
Qed.

(** The pivot lands behind every element it ties with. *)
Lemma insertPivot_filter l pivot x :
  StronglySorted ordered l → Forall dom l → dom pivot → dom x →
  filter (tie x) (Host.insertPivot cmp l pivot) = filter (tie x) (l ++ [pivot]).
Proof.
  intros Hsorted Hdom Hp Hx.
  destruct (insertPivot_split l pivot) as (l1 & l2 & -> & -> & H1 & H2); auto.
  apply Forall_app in Hdom as [Hdom1 Hdom2].
  rewrite Forall_forall in H2, Hdom2.
  rewrite !filter_app.
  destruct (decide (tie x pivot)) as [Htie | Htie].
  - assert (filter (tie x) l2 = []) as Hnil.
    { apply filter_none, Forall_forall. intros e He Hxe.
      pose proof (cf_tie_lt x pivot e Hx Hp (Hdom2 e He) Htie (H2 e He)).
      unfold Host.tie in Hxe. lia. }
    rewrite (filter_cons_True _ pivot l2), (filter_cons_True _ pivot []) by done.
    by rewrite Hnil, filter_nil, app_nil_r.
  - rewrite (filter_cons_False _ pivot l2), (filter_cons_False _ pivot []) by done.
    by rewrite filter_nil, app_nil_r.
Qed.

Lemma BinaryInsertionSort_Permutation sorted rest :
  Host.BinaryInsertionSort cmp sorted rest ≡ₚ sorted ++ rest.
Proof.
  unfold Host.BinaryInsertionSort. revert sorted.
  induction rest as [|pivot rest IH]; intros sorted; simpl.
  { by rewrite app_nil_r. }
  rewrite IH, insertPivot_Permutation. simpl. apply Permutation_middle.
Qed.

Lemma BinaryInsertionSort_sorted sorted rest :
  StronglySorted ordered sorted → Forall dom sorted → Forall dom rest →
  StronglySorted ordered (Host.BinaryInsertionSort cmp sorted rest).
Proof.
  unfold Host.BinaryInsertionSort. revert sorted.
  induction rest as [|pivot rest IH]; intros sorted Hsorted Hdom Hrest; simpl.
  { done. }
  apply Forall_cons in Hrest as [Hp Hrest].
  apply IH; [by apply insertPivot_sorted | | done].
  by rewrite insertPivot_Permutation, Forall_cons.
Qed.

Lemma BinaryInsertionSort_filter sorted rest x :
  StronglySorted ordered sorted → Forall dom sorted → Forall dom rest → dom x →
  filter (tie x) (Host.BinaryInsertionSort cmp sorted rest)
  = filter (tie x) (sorted ++ rest).
Proof.
  unfold Host.BinaryInsertionSort. revert sorted.
  induction rest as [|pivot rest IH]; intros sorted Hsorted Hdom Hrest Hx; simpl.
  { by rewrite app_nil_r. }
  apply Forall_cons in Hrest as [Hp Hrest].
  rewrite IH; [| by apply insertPivot_sorted | | done..].
  2:{ by rewrite insertPivot_Permutation, Forall_cons. }
  rewrite filter_app, insertPivot_filter by done.
  by rewrite <-filter_app, <-app_assoc.
Qed.


(** *** The opening run *)

Lemma extendRun_app isDescending prev rest run tail :
  Host.extendRun cmp isDescending prev rest = (run, tail) → rest = run ++ tail.
Proof.
  revert prev run tail.
  induction rest as [|cur rest IH]; intros prev run tail; simpl.
  { by intros [= <- <-]. }
  destruct (if isDescending then _ else _); [by intros [= <- <-]|].
  destruct (Host.extendRun cmp isDescending cur rest) as [run' tail'] eqn:Hrun.
  intros [= <- <-]. by rewrite (IH cur run' tail').
Qed.

Lemma extendRun_ascending prev rest run tail :
  dom prev → Forall dom rest →
  Host.extendRun cmp false prev rest = (run, tail) →
  StronglySorted ordered (prev :: run).
Proof.
  revert prev run tail.
  induction rest as [|cur rest IH]; intros prev run tail Hprev Hrest; simpl.
  { intros [= <- <-]. by repeat constructor. }
  apply Forall_cons in Hrest as [Hcur Hrest].
  destruct (cmp cur prev <? 0)%Z eqn:Horder.
  { intros [= <- <-]. by repeat constructor. }
  apply Z.ltb_ge in Horder.
  destruct (Host.extendRun cmp false cur rest) as [run' tail'] eqn:Hrun.
  intros [= <- <-].
  pose proof (IH cur run' tail' Hcur Hrest Hrun) as Hsorted.
  apply extendRun_app in Hrun as ->. apply Forall_app in Hrest as [Hrun' _].
  constructor; [done|]. constructor; [done|].
  apply StronglySorted_inv in Hsorted as [_ Hall].
  rewrite Forall_forall in Hall, Hrun'. apply Forall_forall. intros e He.
  apply (ordered_trans prev cur e); auto.
Qed.

Lemma extendRun_descending prev rest run tail :
  dom prev → Forall dom rest →
  Host.extendRun cmp true prev rest = (run, tail) →
  StronglySorted descending (prev :: run).
Proof.
  revert prev run tail.
  induction rest as [|cur rest IH]; intros prev run tail Hprev Hrest; simpl.
  { intros [= <- <-]. by repeat constructor. }
  apply Forall_cons in Hrest as [Hcur Hrest].
  destruct (0 <=? cmp cur prev)%Z eqn:Horder.
  { intros [= <- <-]. by repeat constructor. }
  apply Z.leb_gt in Horder.
  destruct (Host.extendRun cmp true cur rest) as [run' tail'] eqn:Hrun.
  intros [= <- <-].
  pose proof (IH cur run' tail' Hcur Hrest Hrun) as Hsorted.
  apply extendRun_app in Hrun as ->. apply Forall_app in Hrest as [Hrun' _].
  constructor; [done|]. constructor; [done|].
  apply StronglySorted_inv in Hsorted as [_ Hall].
  rewrite Forall_forall in Hall, Hrun'. apply Forall_forall. intros e He.
  apply (Host.cf_trans_lt _ _ HC e cur prev); auto. by apply Hall.
Qed.

(** Reversing a strictly descending run sorts it, and moves no element
    past one it ties with: the run holds at most one of them. *)
Lemma reverse_descending_sorted l :
  StronglySorted descending l → Forall dom l →
  StronglySorted ordered (reverse l).
Proof.
  induction 1 as [|a l Hsorted IH Hall]; intros Hdom; [constructor|].
  apply Forall_cons in Hdom as [Ha Hdom].
  rewrite reverse_cons. apply StronglySorted_app. split_and!.
  - intros x1 x2 Hx1 ->%list_elem_of_singleton.
    rewrite elem_of_reverse in Hx1.
    rewrite Forall_forall in Hall, Hdom. unfold Host.ordered.
    pose proof (cf_lt_gt x1 a (Hdom _ Hx1) Ha (Hall _ Hx1)). lia.
  - by apply IH.
  - by repeat constructor.
Qed.

Lemma reverse_descending_filter l x :
  StronglySorted descending l → Forall dom l → dom x →
  filter (tie x) (reverse l) = filter (tie x) l.
Proof.
  induction 1 as [|a l Hsorted IH Hall]; intros Hdom Hx; [done|].
  apply Forall_cons in Hdom as [Ha Hdom].
  rewrite reverse_cons, filter_app, IH by done.
  destruct (decide (tie x a)) as [Htie | Htie].
  - assert (filter (tie x) l = []) as Hnil.
    { apply filter_none, Forall_forall. intros e He Hxe.
      rewrite Forall_forall in Hall, Hdom.
      pose proof (Hall e He) as Hlt. unfold Host.descending in Hlt.
      apply (Host.cf_sym _ _ HC x e Hx (Hdom e He)) in Hxe.
      pose proof (Host.cf_trans_eq _ _ HC e x a (Hdom e He) Hx Ha Hxe Htie).
      lia. }
    rewrite (filter_cons_True _ a l), (filter_cons_True _ a []) by done.
    by rewrite Hnil, filter_nil.
  - rewrite (filter_cons_False _ a l), (filter_cons_False _ a []) by done.
    by rewrite filter_nil, app_nil_r.
Qed.

Lemma CountAndMakeRun_spec l run tail :
  Forall dom l → Host.CountAndMakeRun cmp l = (run, tail) →
  ∃ raw, l = raw ++ tail ∧ run ≡ₚ raw ∧ StronglySorted ordered run ∧
    ∀ x, dom x → filter (tie x) run = filter (tie x) raw.
Proof.
  intros Hdom. destruct l as [|hi [|lo rest]]; simpl.
  { intros [= <- <-]. exists []. split_and!; auto. constructor. }
  { intros [= <- <-]. exists [hi]. split_and!; auto. by repeat constructor. }
  apply Forall_cons in Hdom as [Hhi Hdom].
  apply Forall_cons in Hdom as [Hlo Hdom].
  destruct (Host.extendRun cmp _ lo rest) as [run' tail'] eqn:Hrun.
  pose proof (extendRun_app _ _ _ _ _ Hrun) as ->.
  apply Forall_app in Hdom as Hsplit. destruct Hsplit as [Hrun' _].
  intros [= <- <-]. exists (hi :: lo :: run'). split; [done|].
  destruct (cmp lo hi <? 0)%Z eqn:Horder.
  - apply Z.ltb_lt in Horder.
    pose proof (extendRun_descending _ _ _ _ Hlo Hdom Hrun) as Hsorted.
    assert (StronglySorted descending (hi :: lo :: run')) as Hwhole.
    { constructor; [done|]. constructor; [done|].
      apply StronglySorted_inv in Hsorted as [_ Hall].
      rewrite Forall_forall in Hall, Hrun'. apply Forall_forall. intros e He.
      apply (Host.cf_trans_lt _ _ HC e lo hi); auto. by apply Hall. }
    assert (Forall dom (hi :: lo :: run')) by (by repeat constructor).
    split_and!.
    + by rewrite reverse_Permutation.
    + by apply reverse_descending_sorted.
    + intros x Hx. by apply reverse_descending_filter.
  - apply Z.ltb_ge in Horder.
    pose proof (extendRun_ascending _ _ _ _ Hlo Hdom Hrun) as Hsorted.
    split_and!; [done | | done].
    constructor; [done|]. constructor; [done|].
    apply StronglySorted_inv in Hsorted as [_ Hall].
    rewrite Forall_forall in Hall, Hrun'. apply Forall_forall. intros e He.
    apply (ordered_trans hi lo e); auto.
Qed.

(** *** The sort *)

(** For a consistent [comparefn] the result is the stable sort of the
    array: a sorted permutation in which the elements of every tie class
    keep their order. *)
Theorem array_sort_Permutation l : Host.array_sort cmp l ≡ₚ l.
Proof.
  unfold Host.array_sort.
  destruct (Host.CountAndMakeRun cmp l) as [run tail] eqn:Hrun.
  rewrite BinaryInsertionSort_Permutation.
  destruct l as [|hi [|lo rest]]; simpl in Hrun.
  - by injection Hrun as <- <-.
  - by injection Hrun as <- <-.
  - destruct (Host.extendRun cmp _ lo rest) as [run' tail'] eqn:Hext.
    apply extendRun_app in Hext as ->. injection Hrun as <- <-.
    destruct (_ <? _)%Z; [by rewrite reverse_Permutation|done].
Qed.

Theorem array_sort_sorted l :
  Forall dom l → StronglySorted ordered (Host.array_sort cmp l).
Proof.
  intros Hdom. unfold Host.array_sort.
  destruct (Host.CountAndMakeRun cmp l) as [run tail] eqn:Hrun.
  destruct (CountAndMakeRun_spec l run tail Hdom Hrun)
    as (raw & -> & Hperm & Hsorted & _).
  apply Forall_app in Hdom as [Hraw Htail].
  apply BinaryInsertionSort_sorted; [done | by rewrite Hperm | done].
Qed.

Theorem array_sort_stable l x :
  Forall dom l → dom x →
  filter (tie x) (Host.array_sort cmp l) = filter (tie x) l.
Proof.
  intros Hdom Hx. unfold Host.array_sort.
  destruct (Host.CountAndMakeRun cmp l) as [run tail] eqn:Hrun.
  destruct (CountAndMakeRun_spec l run tail Hdom Hrun)
    as (raw & -> & Hperm & Hsorted & Hfilter).
  apply Forall_app in Hdom as [Hraw Htail].
  rewrite BinaryInsertionSort_filter; [| done | by rewrite Hperm | done..].
  by rewrite !filter_app, Hfilter.
Qed.

(** These three properties determine the result: two sorted arrangements
    of the same elements that keep every tie class in the same order are
    equal.  So on a consistent [comparefn] every stable sort, whatever its
    algorithm, returns what [array_sort] returns. *)
Theorem stable_sort_unique out1 out2 :
  Forall dom out1 → out1 ≡ₚ out2 →
  StronglySorted ordered out1 → StronglySorted ordered out2 →
  (∀ x, dom x → filter (tie x) out1 = filter (tie x) out2) →
  out1 = out2.
Proof.
  intros Hdom. revert out2.
  induction out1 as [|a t1 IH]; intros out2 Hperm Hs1 Hs2 Hfilter.
  { symmetry. by apply Permutation_nil. }
  destruct out2 as [|b t2]; [by apply Permutation_nil_r in Hperm|].
  apply Forall_cons in Hdom as [Ha Hdom].
  apply StronglySorted_inv in Hs1 as [Hs1 Hall1].
  apply StronglySorted_inv in Hs2 as [Hs2 Hall2].
  rewrite Forall_forall in Hall1, Hall2.
  assert (b ∈ a :: t1) as Hb by (rewrite Hperm; left).
  assert (a ∈ b :: t2) as Ha' by (rewrite <-Hperm; left).
  assert (dom b) as Hdomb.
  { apply elem_of_cons in Hb as [-> | Hb]; [done|].
    rewrite Forall_forall in Hdom. by apply Hdom. }
  assert (tie a b) as Htie.
  { unfold Host.tie.
    apply elem_of_cons in Hb as [-> | Hb]; [by apply (Host.cf_refl _ _ HC)|].
    apply elem_of_cons in Ha' as [-> | Ha']; [by apply (Host.cf_refl _ _ HC)|].
    pose proof (Hall1 b Hb) as Hab. pose proof (Hall2 a Ha') as Hba.
    unfold Host.ordered in Hab, Hba.
    destruct (Z.lt_trichotomy (cmp a b) 0) as [Hlt | [? | Hgt]]; [| done |].
    - pose proof (cf_lt_gt a b Ha Hdomb Hlt). lia.
    - apply Z.lt_gt in Hgt. pose proof (cf_gt_lt a b Ha Hdomb Hgt). lia. }
  assert (a = b) as <-.
  { pose proof (Hfilter a Ha) as Hhead.
    rewrite (filter_cons_True _ a t1) in Hhead
      by (by apply (Host.cf_refl _ _ HC)).
    rewrite (filter_cons_True _ b t2) in Hhead by done.
    by injection Hhead. }
  f_equal. apply IH; [done | by apply (inj (a ::.)) | done | done |].
  intros x Hx. pose proof (Hfilter x Hx) as Hboth.
  destruct (decide (tie x a)) as [Hxa | Hxa].
  - rewrite !(filter_cons_True _ a) in Hboth by done. by injection Hboth.
  - by rewrite !(filter_cons_False _ a) in Hboth by done.
Qed.

End ArraySortFacts.

(** *** Sorting in the opposite direction *)

Lemma StronglySorted_reverse {A} (R R' : relation A) l :
  StronglySorted R l →
  (∀ a b, a ∈ l → b ∈ l → R a b → R' b a) →
  StronglySorted R' (reverse l).
Proof.
  induction 1 as [|a l Hsorted IH Hall]; intros Hflip; [constructor|].
  rewrite reverse_cons. apply StronglySorted_app. split_and!.
  - intros x1 x2 Hx1 ->%list_elem_of_singleton.
    rewrite elem_of_reverse in Hx1. rewrite Forall_forall in Hall.
    apply Hflip; [left | by right | by apply Hall].
  - apply IH. intros x y Hx Hy. apply Hflip; by right.
  - by repeat constructor.
Qed.

Lemma ConsistentOn_Consistent {A} (comparefn : A → A → Z) l :
  Host.ConsistentOn comparefn l → Host.Consistent comparefn (.∈ l).
Proof.
  unfold Host.ConsistentOn. rewrite Forall_forall. intros H.
  split.
  - intros a Ha. by destruct (H a Ha).
  - intros a b Ha Hb. destruct (H a Ha) as [_ Hb'].
    rewrite Forall_forall in Hb'. by destruct (Hb' b Hb).
  - intros a b c Ha Hb Hc. destruct (H a Ha) as [_ Hb'].
    rewrite Forall_forall in Hb'. destruct (Hb' b Hb) as [_ Hc'].
    rewrite Forall_forall in Hc'. by destruct (Hc' c Hc) as (? & ? & ?).
  - intros a b c Ha Hb Hc. destruct (H a Ha) as [_ Hb'].
    rewrite Forall_forall in Hb'. destruct (Hb' b Hb) as [_ Hc'].
    rewrite Forall_forall in Hc'. by destruct (Hc' c Hc) as (? & ? & ?).
  - intros a b c Ha Hb Hc. destruct (H a Ha) as [_ Hb'].
    rewrite Forall_forall in Hb'. destruct (Hb' b Hb) as [_ Hc'].
    rewrite Forall_forall in Hc'. by destruct (Hc' c Hc) as (? & ? & ?).
Qed.

Section Opposite.
Context {A : Type} (comparefn opposite : A → A → Z) (l : list A).
Hypothesis Hopposite : ∀ a b, opposite a b = (- comparefn a b)%Z.
Hypothesis HC : Host.Consistent comparefn (.∈ l).

Lemma Consistent_opposite : Host.Consistent opposite (.∈ l).
Proof.
  destruct HC as [Hrefl Hsym Heq Hlt Hgt].
  split; intros *; rewrite ?Hopposite; intros.
  - rewrite Hrefl by done. lia.
  - rewrite (Hsym a b) by (done || lia). lia.
  - rewrite (Heq a b c) by (done || lia). lia.
  - assert (comparefn a c > 0)%Z by (apply (Hgt a b c); done || lia). lia.
  - assert (comparefn a c < 0)%Z by (apply (Hlt a b c); done || lia). lia.
Qed.

(** When rows that compare equal are identical, sorting the sorted
    array by the opposite comparator reverses it. *)
Lemma array_sort_opposite :
  (∀ a b, a ∈ l → b ∈ l → comparefn a b = 0%Z → a = b) →
  Host.array_sort opposite (Host.array_sort comparefn l)
  = reverse (Host.array_sort comparefn l).
Proof.
  intros Hdistinct.
  set (s := Host.array_sort comparefn l).
  assert (s ≡ₚ l) as Hperm by apply array_sort_Permutation.
  assert (∀ x, x ∈ s → x ∈ l) as Hin by (intros x; by rewrite Hperm).
  assert (Forall (.∈ l) l) as Hall by (by apply Forall_forall).
  assert (Forall (.∈ l) s) as Halls by (by apply Forall_forall).
  apply (StronglySorted_unique_strong (Host.ordered opposite)).
  - intros x1 x2 Hx1 Hx2. unfold Host.ordered. rewrite !Hopposite.
    rewrite array_sort_Permutation in Hx1. rewrite elem_of_reverse in Hx2.
    intros H21 H12. apply Hdistinct; auto.
    destruct (Z.lt_trichotomy (comparefn x1 x2) 0) as [Hlt | [? | ?]];
      [| done | lia].
    pose proof (cf_lt_gt comparefn _ HC x1 x2 (Hin _ Hx1) (Hin _ Hx2) Hlt). lia.
  - apply (array_sort_sorted opposite (.∈ l)); [apply Consistent_opposite | done].
  - apply (StronglySorted_reverse (Host.ordered comparefn)).
    + by apply (array_sort_sorted comparefn (.∈ l)).
    + intros a b Ha Hb. unfold Host.ordered. rewrite Hopposite. intros Hab.
      destruct (Z.lt_trichotomy (comparefn a b) 0) as [? | [? | Hgt]]; [lia..|].
      apply Z.lt_gt in Hgt.
      pose proof (cf_gt_lt comparefn _ HC a b (Hin _ Ha) (Hin _ Hb) Hgt). lia.
  - by rewrite array_sort_Permutation, reverse_Permutation.
Qed.

End Opposite.

(** *** Sorting with a comparator that is only antisymmetric *)

Section NeighbourOrder.
Context {A : Type} (comparefn : A → A → Z).
Hypothesis Hantisym : ∀ a b, (comparefn a b < 0)%Z → (comparefn b a > 0)%Z.

Local Abbreviation cmp := comparefn.
Local Abbreviation ordered := (Host.ordered comparefn).
Local Abbreviation descending := (Host.descending comparefn).











End NeighbourOrder.

(** ** The comparison [<] *)

Lemma ascii_compare_trans a b c :
  Ascii.compare a b = Lt → Ascii.compare b c = Lt → Ascii.compare a c = Lt.
Proof.
  unfold Ascii.compare. rewrite !N.compare_lt_iff. lia.
Qed.

Lemma string_compare_refl s : String.compare s s = Eq.
Proof.
  induction s as [|a s IH]; simpl; [done|].
  unfold Ascii.compare. by rewrite N.compare_refl.
Qed.

Lemma string_compare_trans s1 s2 s3 :
  String.compare s1 s2 = Lt → String.compare s2 s3 = Lt →
  String.compare s1 s3 = Lt.
Proof.
  revert s2 s3. induction s1 as [|a s1 IH]; intros [|b s2] [|c s3]; simpl;
    try done.
  destruct (Ascii.compare a b) eqn:Hab; [|  | done].
  - apply Ascii.compare_eq_iff in Hab as ->.
    destruct (Ascii.compare b c); [by apply IH | done | done].
  - destruct (Ascii.compare b c) eqn:Hbc; [| | done].
    + apply Ascii.compare_eq_iff in Hbc as <-. by rewrite Hab.
    + by rewrite (ascii_compare_trans a b c).
Qed.

Lemma string_ltb_lt s t : String.ltb s t = true ↔ String.compare s t = Lt.
Proof. unfold String.ltb. by destruct (String.compare s t). Qed.

Lemma lessThan_irrefl v : JS.lessThan v v = false.
Proof.
  destruct v as [| | b | n | s]; simpl; try done.
  - destruct b; apply Z.ltb_irrefl.
  - destruct n; [done | apply Z.ltb_irrefl].
  - unfold String.ltb. by rewrite string_compare_refl.
Qed.

Lemma lessThan_strings s t : JS.lessThan (JS.Str s) (JS.Str t) = String.ltb s t.
Proof. done. Qed.

Lemma lessThan_numbers x y :
  isString x = false ∨ isString y = false →
  JS.lessThan x y = numberLessThan (JS.ToNumber x) (JS.ToNumber y).
Proof. destruct x, y; simpl; by intros [? | ?]. Qed.

Lemma lessThan_asym x y : JS.lessThan x y = true → JS.lessThan y x = false.
Proof.
  destruct (isString x) eqn:Hx, (isString y) eqn:Hy.
  - destruct x, y; try done. rewrite !lessThan_strings.
    unfold String.ltb. rewrite (String.compare_antisym s0 s).
    by destruct (String.compare s s0).
  - rewrite !lessThan_numbers by auto.
    destruct (JS.ToNumber x), (JS.ToNumber y); simpl; try done.
    intros ?%Z.ltb_lt. apply Z.ltb_ge. lia.
  - rewrite !lessThan_numbers by auto.
    destruct (JS.ToNumber x), (JS.ToNumber y); simpl; try done.
    intros ?%Z.ltb_lt. apply Z.ltb_ge. lia.
  - rewrite !lessThan_numbers by auto.
    destruct (JS.ToNumber x), (JS.ToNumber y); simpl; try done.
    intros ?%Z.ltb_lt. apply Z.ltb_ge. lia.
Qed.

Lemma compareRows_asc_lt key a b :
  (compareRows key asc a b < 0)%Z ↔ JS.lessThan (get a key) (get b key) = true.
Proof.
  unfold compareRows, JS.greaterThan. simpl.
  destruct (JS.lessThan (get a key) (get b key)),
    (JS.lessThan (get b key) (get a key)); split; (done || lia).
Qed.

Lemma compareRows_asc_gt key a b :
  (compareRows key asc a b > 0)%Z ↔ JS.lessThan (get b key) (get a key) = true.
Proof.
  unfold compareRows, JS.greaterThan. simpl.
  destruct (JS.lessThan (get a key) (get b key)) eqn:Hab.
  - rewrite (lessThan_asym _ _ Hab). split; (done || lia).
  - destruct (JS.lessThan (get b key) (get a key)); split; (done || lia).
Qed.

Lemma compareRows_asc_tie key a b :
  compareRows key asc a b = 0%Z ↔
  JS.lessThan (get a key) (get b key) = false ∧
  JS.lessThan (get b key) (get a key) = false.
Proof.
  unfold compareRows, JS.greaterThan. simpl.
  destruct (JS.lessThan (get a key) (get b key)),
    (JS.lessThan (get b key) (get a key)); split;
    first [done | lia | by intros [? ?]].
Qed.

(** ** The sort engine *)

Lemma keyIsFalsy_Some key : keyIsFalsy (Some key) = false ↔ key ≠ "".
Proof.
  unfold keyIsFalsy. simpl. rewrite negb_involutive.
  destruct (String.eqb_spec key ""); naive_solver.
Qed.

Lemma sortedData_sorts {W} (props : DataTableProps W) key direction selected :
  key ≠ "" →
  sortedData props (sortedBy (Some key) direction selected)
  = Host.array_sort (compareRows key direction) (data props).
Proof.
  intros Hkey%keyIsFalsy_Some. unfold sortedData, sortedBy.
  cbn [sortConfig SortConfig.key SortConfig.direction]. by rewrite Hkey.
Qed.

Lemma sortedData_sortEngine {W} (props : DataTableProps W) st :
  sortedData props st = sortEngine (data props) (sortConfig st).
Proof. done. Qed.

Lemma sortEngine_sorts rows key direction :
  key ≠ "" →
  sortEngine rows (SortConfig.mk (Some key) direction)
  = Host.array_sort (compareRows key direction) rows.
Proof. apply (sortedData_sorts (W := unit) (dataOnly rows) key direction ∅). Qed.

Lemma compareRows_desc key a b :
  compareRows key desc a b = (- compareRows key asc a b)%Z.
Proof.
  unfold compareRows. simpl.
  by destruct (JS.lessThan (get a key) (get b key)),
       (JS.greaterThan (get a key) (get b key)).
Qed.

Lemma compareRows_opposite key direction a b :
  compareRows key (toggle direction) a b = (- compareRows key direction a b)%Z.
Proof.
  destruct direction; simpl; rewrite compareRows_desc; lia.
Qed.

Lemma filter_pair_tie (compare : Row → Row → Z) (a b : Row) (l : list Row) :
  compare a a = 0%Z → compare a b = 0%Z →
  filter (λ r, r = a ∨ r = b) l
  = filter (λ r, r = a ∨ r = b) (filter (Host.tie compare a) l).
Proof.
  intros Haa Hab. rewrite list_filter_filter. apply list_filter_iff.
  intros r. unfold Host.tie. split; [|by intros [? _]].
  intros Hr. split; [done|]. by destruct Hr as [-> | ->].
Qed.

(** C1 (amended): when the comparison is consistent on the rows, that is,
    their values at K are mutually comparable, the sorted data is a
    permutation of the data in which any two rows that compare equal keep
    their input order, whichever the direction. *)
Theorem sortedData_stable {W} (props : DataTableProps W) key direction selected :
  key ≠ "" →
  Host.Consistent (compareRows key direction) (.∈ data props) →
  sortedData props (sortedBy (Some key) direction selected) ≡ₚ data props ∧
  stable (compareRows key direction) (data props)
    (sortedData props (sortedBy (Some key) direction selected)).
Proof.
  intros Hkey HC. rewrite sortedData_sorts by done. split.
  { apply array_sort_Permutation. }
  intros a b Ha Hb Htie. unfold keepsOrder.
  pose proof (Host.cf_refl _ _ HC a Ha) as Hrefl.
  rewrite (filter_pair_tie _ a b (Host.array_sort _ _)) by done.
  rewrite (filter_pair_tie (compareRows key direction) a b (data props)) by done.
  f_equal. apply (array_sort_stable _ (.∈ data props)); [done | | done].
  by apply Forall_forall.
Qed.

Lemma sortedData_stable_witness :
  sortedData (W := unit) (dataOnly staff) (sortedBy (Some "role") desc ∅) ≡ₚ staff ∧
  stable (compareRows "role" desc) staff
    (sortedData (W := unit) (dataOnly staff) (sortedBy (Some "role") desc ∅)).
Proof.
  apply (sortedData_stable (W := unit) (dataOnly staff) "role" desc ∅).
  - done.
  - apply ConsistentOn_Consistent, (bool_decide_unpack _). by vm_compute.
Defined.

(** C1, as stated, fails on [products] sorted by ["stock"]: the row
    without the field ties with every row, so the comparison is not
    consistent, and rows 5 and 7, which have the same stock, come out in
    the order 7, 5. *)
Lemma sortedData_unstable_on_missing_field :
  ¬ Host.ConsistentOn (compareRows "stock" asc) products ∧
  columnValues "id"
    (sortedData (W := unit) (dataOnly products) (sortedBy (Some "stock") asc ∅))
  = [num 6; num 7; num 1; num 2; num 3; num 4; num 5] ∧
  ¬ stable (compareRows "stock" asc) products
      (sortedData (W := unit) (dataOnly products) (sortedBy (Some "stock") asc ∅)).
Proof.
  split; [apply (bool_decide_unpack _); by vm_compute|].
  split; [by vm_compute|].
  intros Hstable.
  set (row5 := record [("id", num 5); ("stock", num 1)]).
  set (row7 := record [("id", num 7); ("stock", num 1)]).
  specialize (Hstable row5 row7). unfold keepsOrder in Hstable.
  assert (Hfalse : bool_decide
    (filter (λ r, r = row5 ∨ r = row7)
       (sortedData (W := unit) (dataOnly products)
          (sortedBy (Some "stock") asc ∅))
     = filter (λ r, r = row5 ∨ r = row7) products) = false)
    by (by vm_compute).
  apply bool_decide_eq_false in Hfalse. apply Hfalse, Hstable.
  - apply (bool_decide_unpack _). by vm_compute.
  - apply (bool_decide_unpack _). by vm_compute.
  - by vm_compute.
Qed.









(** C3: with no sort key the sort engine returns the data as it is. *)
Theorem sortedData_unset_key {W} (props : DataTableProps W) direction selected :
  sortedData props (sortedBy None direction selected) = data props.
Proof. reflexivity. Qed.

(** C9: a key that is the empty string counts as unset: the data comes
    back as it is, in both directions, and so it does after a click on the
    header of a column whose key is the empty string. *)
Theorem sortedData_empty_key {W} (props : DataTableProps W) :
  (∀ direction selected,
     sortedData props (sortedBy (Some "") direction selected) = data props) ∧
  (∀ st, sortedData props (handleSort "" st) = data props) ∧
  (∀ i column st w,
     columns props !! i = Some column → Column.key column = "" →
     (dispatch props (HeaderClick i) st w).1 = st ∨
     sortedData props (dispatch props (HeaderClick i) st w).1 = data props).
Proof.
  split; [reflexivity | split; [reflexivity|]].
  intros i column st w Hcolumn Hkey. unfold dispatch.
  destruct (render props st); [by left.. |]. rewrite Hcolumn, Hkey.
  destruct (isTrue (Column.sortable column)); [by right | by left].
Qed.

(** ** The sort configuration *)

(** C4: in the populated table, the only view that has headers, a click
    on the header of a sortable column K runs [handleSort K] and nothing
    else: the new key is K, and the direction is the old one toggled when K
    was the active key and ascending otherwise; the selection and the
    caller's world are untouched.  [handleSort] does this from every prior
    state, and no interaction changes the sort configuration in any other
    way. *)
Theorem handleSort_transition :
  (∀ W (props : DataTableProps W) i column st w,
     isTrue (loading props) = false → data props ≠ [] →
     columns props !! i = Some column →
     isTrue (Column.sortable column) = true →
     dispatch props (HeaderClick i) st w = (handleSort (Column.key column) st, w) ∧
     selectedRows (dispatch props (HeaderClick i) st w).1 = selectedRows st ∧
     SortConfig.key (sortConfig (dispatch props (HeaderClick i) st w).1)
     = Some (Column.key column) ∧
     SortConfig.direction (sortConfig (dispatch props (HeaderClick i) st w).1)
     = if decide (SortConfig.key (sortConfig st) = Some (Column.key column))
       then toggle (SortConfig.direction (sortConfig st)) else asc) ∧
  (∀ K st,
     selectedRows (handleSort K st) = selectedRows st ∧
     SortConfig.key (sortConfig (handleSort K st)) = Some K ∧
     SortConfig.direction (sortConfig (handleSort K st))
     = if decide (SortConfig.key (sortConfig st) = Some K)
       then toggle (SortConfig.direction (sortConfig st)) else asc) ∧
  (∀ W (props : DataTableProps W) event st w,
     sortConfig (dispatch props event st w).1 = sortConfig st ∨
     ∃ i column, event = HeaderClick i ∧ columns props !! i = Some column ∧
       isTrue (Column.sortable column) = true ∧
       (dispatch props event st w).1 = handleSort (Column.key column) st).
Proof.
  assert (∀ K st,
     selectedRows (handleSort K st) = selectedRows st ∧
     SortConfig.key (sortConfig (handleSort K st)) = Some K ∧
     SortConfig.direction (sortConfig (handleSort K st))
     = if decide (SortConfig.key (sortConfig st) = Some K)
       then toggle (SortConfig.direction (sortConfig st)) else asc) as Hrule.
  { intros K st. split_and!; [done..|]. unfold handleSort. simpl.
    destruct (sortConfig st) as [key direction]. simpl.
    case_decide as Hkey.
    + rewrite bool_decide_eq_true_2 by done. by destruct direction.
    + by rewrite bool_decide_eq_false_2. }
  split; [|split; [done|]].
  - intros W props i column st w Hloading Hdata Hcolumn Hsortable.
    assert (dispatch props (HeaderClick i) st w
            = (handleSort (Column.key column) st, w)) as ->.
    { unfold dispatch, render. rewrite Hloading.
      rewrite bool_decide_eq_false_2 by (by destruct (data props)).
      by rewrite Hcolumn, Hsortable. }
    split; [done|]. apply Hrule.
  - intros W props event st w. unfold dispatch.
    destruct (render props st); [by left.. |].
    destruct event as [i | checked | index checked].
    + destruct (columns props !! i) as [column|] eqn:Hcolumn; [|by left].
      destruct (isTrue (Column.sortable column)) eqn:Hsortable; [|by left].
      right. by exists i, column.
    + left. unfold handleSelectAll.
      by destruct (isTrue (selectable props)), checked.
    + left. by destruct (_ && _).
Qed.

(** ** The selection tracker *)

Lemma callOnRowSelect_Some {W} (props : DataTableProps W) callback rows w :
  onRowSelect props = Some callback →
  callOnRowSelect props rows w = callback rows w.
Proof. unfold callOnRowSelect. by intros ->. Qed.



Lemma filterFrom_ext {A} (p p' : A → nat → bool) n (l : list A) :
  (∀ x i, n ≤ i → p x i = p' x i) →
  Host.filterFrom p n l = Host.filterFrom p' n l.
Proof.
  revert n. induction l as [|x l IH]; intros n Hext; simpl; [done|].
  rewrite (Hext x n) by lia.
  rewrite (IH (S n)) by (intros; apply Hext; lia). done.
Qed.

Lemma omap_ext_elem_of {A B} (f g : A → option B) (l : list A) :
  (∀ x, x ∈ l → f x = g x) → omap f l = omap g l.
Proof.
  induction l as [|x l IH]; intros Hext; csimpl; [done|].
  rewrite (Hext x) by left. rewrite IH by (intros; apply Hext; by right).
  done.
Qed.

(** The rows a filter by position keeps are the rows at the selected
    positions, taken in ascending order; positions past the end give no
    row. *)
Lemma filterFrom_positions {A} (l : list A) n (qs : list nat) :
  StronglySorted lt qs → Forall (λ q, n ≤ q) qs →
  Host.filterFrom (λ _ i, bool_decide (i ∈ qs)) n l
  = omap (λ q, l !! (q - n)) qs.
Proof.
  revert n qs. induction l as [|x l IH]; intros n qs Hsorted Hge; simpl.
  { symmetry. clear. induction qs as [|q qs IH]; csimpl; done. }
  assert (∀ qs', Forall (λ q, S n ≤ q) qs' →
    omap (λ q, (x :: l) !! (q - n)) qs' = omap (λ q, l !! (q - S n)) qs')
    as Hshift.
  { intros qs' Hqs'. apply omap_ext_elem_of. intros q Hq.
    rewrite Forall_forall in Hqs'. apply Hqs' in Hq.
    by replace (q - n) with (S (q - S n)) by lia. }
  destruct qs as [|q qs'].
  { rewrite bool_decide_eq_false_2 by apply not_elem_of_nil.
    by rewrite IH by done. }
  apply StronglySorted_inv in Hsorted as [Hsorted Hlt].
  apply Forall_cons in Hge as [Hq Hge].
  assert (Forall (λ q', S n ≤ q') qs') as Hqs'.
  { eapply Forall_impl; [exact Hlt|]. simpl. lia. }
  destruct (decide (q = n)) as [-> | Hne].
  - rewrite bool_decide_eq_true_2 by left. csimpl.
    rewrite Nat.sub_diag. csimpl. f_equal.
    rewrite Hshift by done. rewrite <-IH by done.
    apply filterFrom_ext. intros _ i Hi. apply bool_decide_ext.
    rewrite elem_of_cons. split; [|by right]. intros [-> | ?]; [lia | done].
  - assert (Forall (λ q', S n ≤ q') (q :: qs')) as Hall
      by (constructor; [lia | done]).
    rewrite bool_decide_eq_false_2.
    2:{ rewrite Forall_forall in Hall. intros Hn%Hall. lia. }
    rewrite Hshift by done. apply IH; [by constructor | done].
Qed.

Lemma filterWithIndex_positions {A} (l : list A) (P : gset nat) (qs : list nat) :
  StronglySorted lt qs → list_to_set qs = P →
  Host.filterWithIndex (λ _ i, bool_decide (i ∈ P)) l = omap (l !!.) qs.
Proof.
  intros Hsorted <-. unfold Host.filterWithIndex.
  rewrite (filterFrom_ext _ (λ _ i, bool_decide (i ∈ qs))).
  2:{ intros _ i _. apply bool_decide_ext, elem_of_list_to_set. }
  rewrite filterFrom_positions; [|done|].
  - apply omap_ext_elem_of. intros q _. by rewrite Nat.sub_0_r.
  - apply Forall_forall. intros; lia.
Qed.

Lemma selectEach_snoc {W} (props : DataTableProps W) order position st w :
  selectEach props (order ++ [position]) st w
  = handleSelectRow props position true
      (selectEach props order st w).1 (selectEach props order st w).2.
Proof. unfold selectEach. by rewrite foldl_snoc. Qed.

Lemma selectEach_selectedRows {W} (props : DataTableProps W) order st w :
  selectedRows (selectEach props order st w).1
  = list_to_set order ∪ selectedRows st.
Proof.
  induction order as [|position order IH] using rev_ind.
  { simpl. by rewrite (left_id_L ∅ (∪)). }
  rewrite selectEach_snoc. simpl. rewrite IH, list_to_set_app_L. simpl.
  rewrite (right_id_L ∅ (∪)), (assoc_L (∪)).
  by rewrite (comm_L (∪) {[position]}).
Qed.

(** C6: selecting the positions of a set P one by one, in any order and
    starting from the empty selection, leaves the selection equal to P, and
    the payload of the last call is the rows at the positions of P in
    ascending order of position: the same payload for every order. *)
Theorem selectEach_payload (props : DataTableProps (list (list Row)))
    (P : gset nat) (order positions : list nat) st log :
  onRowSelect props = Some recordPayload →
  selectedRows st = ∅ →
  order ≠ [] → list_to_set order = P →
  StronglySorted lt positions → list_to_set positions = P →
  selectedRows (selectEach props order st log).1 = P ∧
  last (selectEach props order st log).2
  = Some (omap (data props !!.) positions) ∧
  ((∀ p, p ∈ P → p < length (data props)) →
   Forall2 (λ p row, data props !! p = Some row) positions
     (omap (data props !!.) positions)).
Proof.
  intros Hcallback Hempty Horder HP Hsorted Hpositions. split_and!.
  - by rewrite selectEach_selectedRows, Hempty, HP, (right_id_L ∅ (∪)).
  - destruct order as [|position order _] using rev_ind; [done|].
    rewrite selectEach_snoc. unfold handleSelectRow.
    cbn [snd]. rewrite (callOnRowSelect_Some props recordPayload) by done.
    unfold recordPayload. rewrite last_snoc. f_equal.
    apply filterWithIndex_positions; [done|].
    rewrite selectEach_selectedRows, Hempty, Hpositions, <-HP.
    rewrite list_to_set_app_L. simpl.
    rewrite !(right_id_L ∅ (∪)). apply (comm_L (∪)).
  - intros Hrange. clear Hsorted.
    assert (Forall (λ p, p < length (data props)) positions) as Hall.
    { apply Forall_forall. intros p Hp. apply Hrange.
      rewrite <-Hpositions. by apply elem_of_list_to_set. }
    clear -Hall. induction Hall as [|p positions Hp _ IH]; csimpl; [constructor|].
    destruct (lookup_lt_is_Some_2 _ _ Hp) as [row Hrow].
    rewrite Hrow. by constructor.
Qed.

Lemma selectEach_payload_witness :
  selectedRows (selectEach userTable [2; 0] initialState []).1 = {[0; 2]} ∧
  last (selectEach userTable [2; 0] initialState []).2
  = Some (omap (users !!.) [0; 2]) ∧
  ((∀ p, p ∈ ({[0; 2]} : gset nat) → p < length users) →
   Forall2 (λ p row, users !! p = Some row) [0; 2] (omap (users !!.) [0; 2])).
Proof.
  apply (selectEach_payload userTable {[0; 2]} [2; 0] [0; 2] initialState []).
  - reflexivity.
  - reflexivity.
  - discriminate.
  - apply (bool_decide_unpack _). by vm_compute.
  - repeat constructor.
  - apply (bool_decide_unpack _). by vm_compute.
Defined.

Lemma filterFrom_sublist {A} (p : A → nat → bool) n (l : list A) :
  Host.filterFrom p n l `sublist_of` l.
Proof.
  revert n. induction l as [|x l IH]; intros n; simpl; [done|].
  destruct (p x n); [by apply sublist_skip | by apply sublist_cons].
Qed.

Lemma elem_of_filterFrom {A} (p : A → nat → bool) n (l : list A) x :
  x ∈ Host.filterFrom p n l → ∃ i, l !! i = Some x ∧ p x (n + i) = true.
Proof.
  revert n. induction l as [|y l IH]; intros n; simpl.
  { by intros ?%elem_of_nil. }
  destruct (p y n) eqn:Hp.
  - intros [-> | Hx]%elem_of_cons.
    + exists 0. by rewrite Nat.add_0_r.
    + destruct (IH _ Hx) as (i & Hi & Hpi). exists (S i).
      by rewrite Nat.add_succ_r.
  - intros Hx. destruct (IH _ Hx) as (i & Hi & Hpi). exists (S i).
    by rewrite Nat.add_succ_r.
Qed.

(** C10: whatever the selection held before, stale positions included, the
    payload [selectRow] reports is the data filtered by membership of the
    position in the new selection: the rows at the selected positions in
    ascending order, positions past the end of the data giving no row.  It
    is a subsequence of the data, and each of its rows sits at a selected
    position of the data. *)
Theorem handleSelectRow_payload {W} (props : DataTableProps W) callback
    index checked st w :
  onRowSelect props = Some callback →
  let selected := selectedRows (handleSelectRow props index checked st w).1 in
  let payload :=
    Host.filterWithIndex (λ _ i, bool_decide (i ∈ selected)) (data props) in
  selected = (if checked then {[index]} ∪ selectedRows st
              else selectedRows st ∖ {[index]}) ∧
  (handleSelectRow props index checked st w).2 = callback payload w ∧
  (∀ positions, StronglySorted lt positions → list_to_set positions = selected →
     payload = omap (data props !!.) positions) ∧
  payload `sublist_of` data props ∧
  (∀ row, row ∈ payload →
     ∃ i, i ∈ selected ∧ i < length (data props) ∧ data props !! i = Some row).
Proof.
  intros Hcallback selected payload. split_and!.
  - done.
  - unfold handleSelectRow. cbn [snd].
    by rewrite (callOnRowSelect_Some props callback).
  - intros positions Hsorted Hpositions.
    by apply filterWithIndex_positions.
  - apply filterFrom_sublist.
  - intros row (i & Hi & Hsel)%elem_of_filterFrom.
    exists i. split_and!; [| by eapply lookup_lt_Some | done].
    by apply bool_decide_eq_true in Hsel.
Qed.

(** Position 7 is stale: the data has three rows.  The payload holds the
    rows at positions 0 and 2 only. *)
Lemma handleSelectRow_payload_witness :
  (handleSelectRow userTable 0 true (sortedBy None asc {[2; 7]}) []).2
  = [omap (users !!.) [0; 2]].
Proof.
  destruct (handleSelectRow_payload userTable recordPayload 0 true
              (sortedBy None asc {[2; 7]}) [] eq_refl)
    as (_ & Hcall & Hpayload & _).
  rewrite Hcall, (Hpayload [0; 2; 7]).
  - reflexivity.
  - repeat constructor.
  - apply (bool_decide_unpack _). by vm_compute.
Defined.

(** ** The presentation states *)

(** C7: with the loading flag set the component renders the skeleton, with
    five placeholder rows, whatever the data; it renders the empty state
    exactly when the flag is not set and the data has no rows. *)
Theorem render_states {W} (props : DataTableProps W) st :
  (loading props = Some true →
   ∃ placeholders,
     render props st = LoadingView placeholders ∧ length placeholders = 5) ∧
  ((∃ message, render props st = EmptyView message)
   ↔ loading props ≠ Some true ∧ length (data props) = 0) ∧
  (loading props ≠ Some true → length (data props) = 0 →
   render props st
   = EmptyView (default "No data available" (emptyMessage props))).
Proof.
  unfold render, isTrue.
  destruct (loading props) as [[|]|]; simpl.
  - split; [by eauto | split; [|intros H; by destruct H]].
    split; [by intros [? ?] | intros [H _]; by destruct H].
  - split; [done | split].
    + case_bool_decide as Hlen.
      * split; [by intros _ | by eauto].
      * split; [by intros [? ?] | by intros [_ ?]].
    + intros _ Hlen. by rewrite bool_decide_eq_true_2.
  - split; [done | split].
    + case_bool_decide as Hlen.
      * split; [by intros _ | by eauto].
      * split; [by intros [? ?] | by intros [_ ?]].
    + intros _ Hlen. by rewrite bool_decide_eq_true_2.
Qed.

(** Without a custom renderer a cell shows the string of the value when
    the value is truthy and the empty string when it is falsy. *)
Lemma renderCell_default row column :
  Column.render column = None →
  renderCell row column
  = Text (if JS.ToBoolean (get row (Column.key column))
          then JS.ToString (get row (Column.key column)) else "").
Proof.
  intros Hrender. unfold renderCell, JS.or. rewrite Hrender.
  by destruct (JS.ToBoolean _).
Qed.

(** C8 (a cell without a custom renderer shows the default string of the
    value, and the empty string only for [null] and [undefined]) fails on a
    stock of 0: the string of the value is ["0"], the cell shows the empty
    string; a [false] is blanked the same way. *)
Theorem renderCell_blanks_zero :
  renderCell (record [("id", num 1); ("stock", num 0)])
    (Column.mk "stock" "Stock" None None None) = Text "" ∧
  JS.ToString (num 0) = "0" ∧
  renderCell (record [("id", num 1); ("active", JS.Bool false)])
    (Column.mk "active" "Active" None None None) = Text "" ∧
  JS.ToString (JS.Bool false) = "false".
Proof. by vm_compute. Qed.

(** ** Worked examples *)

(** The operators on values that mix types. *)
Example lessThan_examples :
  JS.lessThan (JS.Str "10") (JS.Str "9") = true ∧
  JS.lessThan (num 9) (num 10) = true ∧
  JS.lessThan (JS.Str "9") (num 10) = true ∧
  JS.lessThan JS.Null (num 0) = false ∧
  JS.lessThan (num 0) JS.Null = false ∧
  JS.lessThan JS.Undefined (num 1) = false ∧
  JS.lessThan (num 1) JS.Undefined = false.
Proof. by vm_compute. Qed.

(** The scenario of the specification: two clicks on the header of
    ["name"] sort the two users ascending, then descending; ticking the
    first displayed row then reports the row at position 0 of the data. *)
Example scenario :
  let props := mkProps (take 2 users) [nameColumn] None (Some true)
                 (Some recordPayload) None in
  let first := dispatch props (HeaderClick 0) initialState [] in
  let second := dispatch props (HeaderClick 0) first.1 first.2 in
  let third := dispatch props (RowCheckboxChange 0 true) second.1 second.2 in
  columnValues "name" (sortedData props first.1) = [JS.Str "A"; JS.Str "B"] ∧
  columnValues "name" (sortedData props second.1) = [JS.Str "B"; JS.Str "A"] ∧
  third.2 = [[record [("id", num 1); ("name", JS.Str "B")]]].
Proof. by vm_compute. Qed.

(** * Further properties *)

(** ** Order of the sorted rows *)

(** A column on which [<] is transitive and being unordered is transitive
    makes the comparator consistent, in both directions. *)
Lemma compareRows_Consistent key direction (rows : list Row) :
  (∀ a b c, a ∈ rows → b ∈ rows → c ∈ rows →
     JS.lessThan (get a key) (get b key) = true →
     JS.lessThan (get b key) (get c key) = true →
     JS.lessThan (get a key) (get c key) = true) →
  (∀ a b c, a ∈ rows → b ∈ rows → c ∈ rows →
     compareRows key asc a b = 0%Z → compareRows key asc b c = 0%Z →
     compareRows key asc a c = 0%Z) →
  Host.Consistent (compareRows key direction) (.∈ rows).
Proof.
  intros Htrans Hties.
  assert (Host.Consistent (compareRows key asc) (.∈ rows)) as Hasc.
  { split.
    - intros a _. apply compareRows_asc_tie. by rewrite lessThan_irrefl.
    - intros a b _ _. rewrite !compareRows_asc_tie. by intros [? ?].
    - done.
    - intros a b c Ha Hb Hc. rewrite !compareRows_asc_lt. by apply Htrans.
    - intros a b c Ha Hb Hc. rewrite !compareRows_asc_gt. intros Hba Hcb.
      by apply (Htrans c b a). }
  destruct direction; [done|].
  apply (Consistent_opposite (compareRows key asc)); [|done].
  apply compareRows_desc.
Qed.

Lemma Consistent_strings key direction (rows : list Row) :
  Forall (λ row, isString (get row key) = true) rows →
  Host.Consistent (compareRows key direction) (.∈ rows).
Proof.
  rewrite Forall_forall. intros Hstr.
  assert (∀ a, a ∈ rows → ∃ s, get a key = JS.Str s) as Hs.
  { intros a Ha. specialize (Hstr a Ha). destruct (get a key); try done. eauto. }
  apply compareRows_Consistent.
  - intros a b c (sa & ->)%Hs (sb & ->)%Hs (sc & ->)%Hs.
    rewrite !lessThan_strings, !string_ltb_lt. apply string_compare_trans.
  - intros a b c Ha Hb Hc. rewrite !compareRows_asc_tie.
    destruct (Hs a Ha) as [sa ->], (Hs b Hb) as [sb ->], (Hs c Hc) as [sc ->].
    rewrite !lessThan_strings. unfold String.ltb.
    rewrite (String.compare_antisym sb sa), (String.compare_antisym sc sb),
      (String.compare_antisym sc sa).
    destruct (String.compare sa sb) eqn:Hab; try by intros [? ?].
    apply String.compare_eq_iff in Hab as ->.
    by destruct (String.compare sb sc).
Qed.

Lemma Consistent_numeric key direction (rows : list Row) :
  Forall (λ row, isNumeric (get row key) = true) rows →
  Host.Consistent (compareRows key direction) (.∈ rows).
Proof.
  rewrite Forall_forall. intros Hnum.
  assert (∀ a, a ∈ rows →
    isString (get a key) = false ∧ ∃ z, JS.ToNumber (get a key) = JS.Fin z) as Hz.
  { intros a Ha. specialize (Hnum a Ha). unfold isNumeric in Hnum.
    destruct (get a key) eqn:Hv; try done;
      (split; [done|]); destruct (JS.ToNumber _); try done; eauto. }
  apply compareRows_Consistent.
  - intros a b c [Ha [za Hza]]%Hz [Hb [zb Hzb]]%Hz [Hc [zc Hzc]]%Hz.
    rewrite !lessThan_numbers by auto. rewrite Hza, Hzb, Hzc. simpl.
    rewrite !Z.ltb_lt. lia.
  - intros a b c [Ha [za Hza]]%Hz [Hb [zb Hzb]]%Hz [Hc [zc Hzc]]%Hz.
    rewrite !compareRows_asc_tie, !lessThan_numbers by auto.
    rewrite Hza, Hzb, Hzc. simpl. rewrite !Z.ltb_ge. lia.
Qed.

Lemma StronglySorted_lookup_lt {A} (R : relation A) (l : list A) i j a b :
  StronglySorted R l → i < j → l !! i = Some a → l !! j = Some b → R a b.
Proof.
  intros Hsorted. revert i j.
  induction Hsorted as [|x l Hsorted IH Hall]; intros i j Hij Hi Hj; [done|].
  destruct j as [|j]; [lia|]. destruct i as [|i]; simpl in *.
  - simplify_eq. rewrite Forall_forall in Hall.
    by eapply Hall, list_elem_of_lookup_2.
  - apply (IH i j); [lia | done..].
Qed.

Lemma array_sort_stable_pairs (compare : Row → Row → Z) (rows : list Row) :
  Host.Consistent compare (.∈ rows) →
  stable compare rows (Host.array_sort compare rows).
Proof.
  intros HC a b Ha Hb Htie. unfold keepsOrder.
  pose proof (Host.cf_refl _ _ HC a Ha) as Hrefl.
  rewrite (filter_pair_tie compare a b (Host.array_sort _ _)) by done.
  rewrite (filter_pair_tie compare a b rows) by done.
  f_equal. apply (array_sort_stable _ (.∈ rows)); [done | | done].
  by apply Forall_forall.
Qed.

Lemma array_sort_inOrder key direction (rows : list Row) :
  Host.Consistent (compareRows key direction) (.∈ rows) →
  inOrder key direction (Host.array_sort (compareRows key direction) rows).
Proof.
  intros HC i j a b Hij Hi Hj.
  assert (Host.ordered (compareRows key direction) a b) as Hab.
  { eapply StronglySorted_lookup_lt; [|done..].
    apply (array_sort_sorted _ (.∈ rows)); [done | by apply Forall_forall]. }
  unfold Host.ordered in Hab. destruct direction.
  - destruct (JS.lessThan (get b key) (get a key)) eqn:Hlt; [|done].
    apply compareRows_asc_lt in Hlt. lia.
  - rewrite compareRows_desc in Hab.
    destruct (JS.lessThan (get a key) (get b key)) eqn:Hlt; [|done].
    apply compareRows_asc_gt in Hlt. lia.
Qed.

Lemma sortedData_cases {W} (props : DataTableProps W) st :
  sortedData props st = data props ∨
  ∃ key, SortConfig.key (sortConfig st) = Some key ∧ key ≠ "" ∧
    sortedData props st
    = Host.array_sort (compareRows key (SortConfig.direction (sortConfig st)))
        (data props).
Proof.
  unfold sortedData. destruct (keyIsFalsy _) eqn:Hfalsy; [by left|].
  destruct (SortConfig.key (sortConfig st)) as [key|]; [|by left].
  right. exists key. by apply keyIsFalsy_Some in Hfalsy.
Qed.

(** X1: whatever the data and the sort configuration, the displayed rows
    are a rearrangement of the data: sorting loses no row, repeats none and
    invents none. *)
Theorem sortedData_Permutation {W} (props : DataTableProps W) st :
  sortedData props st ≡ₚ data props ∧
  length (sortedData props st) = length (data props).
Proof.
  assert (sortedData props st ≡ₚ data props) as Hperm.
  { destruct (sortedData_cases props st) as [-> | (key & _ & _ & ->)]; [done|].
    apply array_sort_Permutation. }
  split; [done | by rewrite Hperm].
Qed.

(** X2: for a sort key other than the empty string, when the comparison
    is consistent on the rows, the displayed rows are in order: further
    down, the value at the key is never smaller (ascending) or never
    larger (descending).  (With the empty string as key the rows stay in
    data order.) *)
Theorem sortedData_inOrder {W} (props : DataTableProps W) key direction selected :
  key ≠ "" →
  Host.Consistent (compareRows key direction) (.∈ data props) →
  inOrder key direction (sortedData props (sortedBy (Some key) direction selected)).
Proof.
  intros Hkey HC. rewrite sortedData_sorts by done. by apply array_sort_inOrder.
Qed.

Lemma sortedData_inOrder_witness :
  inOrder "role" desc
    (sortedData (W := unit) (dataOnly staff) (sortedBy (Some "role") desc ∅)).
Proof.
  apply (sortedData_inOrder (W := unit) (dataOnly staff) "role" desc ∅).
  - done.
  - apply ConsistentOn_Consistent, (bool_decide_unpack _). by vm_compute.
Defined.

(** X3: for a sort key other than the empty string, on a column that
    holds strings only, or numbers, booleans and [null] only (no [NaN]),
    the rows come out in order and rows with equal values keep their input
    order; consistency of the comparison need not be assumed, it follows
    from the kind of the values. *)
Theorem sortedData_homogeneous {W} (props : DataTableProps W) key direction selected :
  key ≠ "" →
  homogeneous key (data props) →
  inOrder key direction (sortedData props (sortedBy (Some key) direction selected)) ∧
  stable (compareRows key direction) (data props)
    (sortedData props (sortedBy (Some key) direction selected)).
Proof.
  intros Hkey Hcolumn. rewrite sortedData_sorts by done.
  assert (Host.Consistent (compareRows key direction) (.∈ data props)) as HC.
  { destruct Hcolumn; [by apply Consistent_strings | by apply Consistent_numeric]. }
  split; [by apply array_sort_inOrder | by apply array_sort_stable_pairs].
Qed.

Lemma sortedData_homogeneous_witness :
  inOrder "name" asc
    (sortedData (W := unit) (dataOnly users) (sortedBy (Some "name") asc ∅)) ∧
  stable (compareRows "name" asc) users
    (sortedData (W := unit) (dataOnly users) (sortedBy (Some "name") asc ∅)).
Proof.
  apply (sortedData_homogeneous (W := unit) (dataOnly users) "name" asc ∅).
  - done.
  - left. by repeat constructor.
Defined.

(** X4: sorting is idempotent: sorting the sorted rows again with the same
    key and direction leaves them as they are, when the comparison is
    consistent on the rows. *)
Theorem sortEngine_idempotent (rows : list Row) key direction :
  key ≠ "" →
  Host.Consistent (compareRows key direction) (.∈ rows) →
  sortEngine (sortEngine rows (SortConfig.mk (Some key) direction))
    (SortConfig.mk (Some key) direction)
  = sortEngine rows (SortConfig.mk (Some key) direction).
Proof.
  intros Hkey HC. rewrite !sortEngine_sorts by done.
  set (compare := compareRows key direction).
  set (sorted := Host.array_sort compare rows).
  assert (sorted ≡ₚ rows) as Hperm by apply array_sort_Permutation.
  assert (Forall (.∈ rows) rows) as Hrows by (by apply Forall_forall).
  assert (Forall (.∈ rows) sorted) as Hsorted by (by rewrite Hperm).
  apply (stable_sort_unique compare (.∈ rows)); [done | | | | |].
  - by rewrite array_sort_Permutation.
  - apply array_sort_Permutation.
  - by apply (array_sort_sorted compare (.∈ rows)).
  - by apply (array_sort_sorted compare (.∈ rows)).
  - intros x Hx. by apply (array_sort_stable compare (.∈ rows)).
Qed.

Lemma sortEngine_idempotent_witness :
  sortEngine (sortEngine staff (SortConfig.mk (Some "role") asc))
    (SortConfig.mk (Some "role") asc)
  = sortEngine staff (SortConfig.mk (Some "role") asc).
Proof.
  apply (sortEngine_idempotent staff "role" asc).
  - done.
  - apply ConsistentOn_Consistent, (bool_decide_unpack _). by vm_compute.
Defined.

(** ** The sort configuration and its icon *)

(** X5: the sort direction of a column is a two-state toggle: a third
    click on the same header gives what the first gave, and on the active
    column two clicks restore the state.  In a table none of whose
    sortable columns has the empty string as its key there is no way back
    to the data order: once the rows are sorted by a key, after any
    interactions the rows shown are still the data sorted by some key
    other than the empty string. *)
Theorem handleSort_toggle :
  (∀ K st, handleSort K (handleSort K (handleSort K st)) = handleSort K st) ∧
  (∀ K st, SortConfig.key (sortConfig st) = Some K →
     handleSort K (handleSort K st) = st) ∧
  (∀ W (props : DataTableProps W) events st w,
     (∀ column, column ∈ columns props →
        isTrue (Column.sortable column) = true → Column.key column ≠ "") →
     keyIsFalsy (SortConfig.key (sortConfig st)) = false →
     ∃ key direction,
       sortConfig (dispatchAll props events st w).1
       = SortConfig.mk (Some key) direction ∧
       key ≠ "" ∧
       sortedData props (dispatchAll props events st w).1
       = Host.array_sort (compareRows key direction) (data props)).
Proof.
  split; [|split].
  - intros K [selected [key direction]]. unfold handleSort. simpl.
    rewrite !(bool_decide_eq_true_2 (Some K = Some K)) by done.
    by destruct (bool_decide (key = Some K)), direction.
  - intros K [selected [key direction]]. simpl. intros ->.
    unfold handleSort. simpl.
    rewrite !(bool_decide_eq_true_2 (Some K = Some K)) by done.
    by destruct direction.
  - intros W props events st w Hkeys Hsorted.
    assert (keyIsFalsy
              (SortConfig.key (sortConfig (dispatchAll props events st w).1))
            = false) as Hfalsy.
    { induction events as [|event events IH] using rev_ind; [done|].
      unfold dispatchAll in *. rewrite foldl_snoc.
      destruct (foldl _ (st, w) events) as [st' w']. simpl in *.
      unfold dispatch. destruct (render props st'); [done.. |].
      destruct event as [i | checked | index checked].
      + destruct (columns props !! i) as [column|] eqn:Hcolumn; [|done].
        destruct (isTrue (Column.sortable column)) eqn:Hsortable; [|done].
        apply keyIsFalsy_Some, Hkeys; [|done].
        by eapply list_elem_of_lookup_2.
      + unfold handleSelectAll.
        by destruct (isTrue (selectable props)), checked.
      + by destruct (_ && _). }
    unfold sortedData. rewrite Hfalsy.
    destruct (sortConfig (dispatchAll props events st w).1)
      as [[key|] direction]; [|done].
    exists key, direction. by apply keyIsFalsy_Some in Hfalsy.
Qed.

(** X6: after a click on the header of K the icon of K shows the new
    direction (down when K was active and ascending, up otherwise) and the
    icon of every other key is the neutral one. *)
Theorem getSortIcon_handleSort K K' st :
  getSortIcon (handleSort K st) K'
  = if decide (K' = K) then
      if decide (SortConfig.key (sortConfig st) = Some K
                 ∧ SortConfig.direction (sortConfig st) = asc)
      then Descending else Ascending
    else Unsorted.
Proof.
  destruct st as [selected [key direction]]. unfold getSortIcon, handleSort. simpl.
  destruct (decide (K' = K)) as [-> | Hne].
  - rewrite bool_decide_eq_false_2 by (by intros []).
    destruct (decide (key = Some K ∧ direction = asc)) as [[-> ->] | Hnot].
    + rewrite (bool_decide_eq_true_2 (Some K = Some K)) by done. done.
    + destruct (bool_decide (key = Some K)) eqn:Hk, direction; simpl; try done.
      apply bool_decide_eq_true in Hk. by destruct Hnot.
  - rewrite bool_decide_eq_true_2; [done|]. by intros [= ->].
Qed.

(** ** The selection and what the table shows of it *)

Lemma sortedData_length {W} (props : DataTableProps W) st :
  length (sortedData props st) = length (data props).
Proof.
  unfold sortedData. destruct (keyIsFalsy _); [done|].
  destruct (SortConfig.key (sortConfig st)); [|done].
  by rewrite array_sort_Permutation.
Qed.

Lemma elem_of_allIndices {A} (l : list A) i :
  i ∈ (list_to_set (imap (λ index _, index) l) : gset nat) ↔ i < length l.
Proof.
  rewrite elem_of_list_to_set, (imap_seq_0 _ id), list_fmap_id, elem_of_seq. lia.
Qed.

Lemma dispatch_validSelection {W} (props : DataTableProps W) event st w :
  validSelection props st → validSelection props (dispatch props event st w).1.
Proof.
  intros Hvalid. unfold dispatch. destruct (render props st); [done.. |].
  destruct event as [i | checked | index checked].
  - destruct (columns props !! i) as [column|]; [|done].
    by destruct (isTrue (Column.sortable column)).
  - destruct (isTrue (selectable props)); [|done].
    unfold handleSelectAll, validSelection. destruct checked; simpl.
    + intros i. by rewrite elem_of_allIndices.
    + intros i. by rewrite elem_of_empty.
  - destruct (isTrue (selectable props)); [|done]. simpl.
    case_bool_decide as Hindex; [|done]. rewrite sortedData_length in Hindex.
    unfold handleSelectRow, validSelection in *.
    destruct checked; simpl; intros i.
    + rewrite elem_of_union, elem_of_singleton. intros [-> | Hi]; auto.
    + rewrite elem_of_difference. intros [Hi _]. auto.
Qed.

(** X7: the table keeps its selection inside the data: if every selected
    position is a position of the data, so it is after any sequence of
    clicks and ticks (the data staying the same). *)
Theorem dispatchAll_validSelection {W} (props : DataTableProps W) events st w :
  validSelection props st →
  validSelection props (dispatchAll props events st w).1.
Proof.
  induction events as [|event events IH] using rev_ind; intros Hvalid; [done|].
  unfold dispatchAll in *. rewrite foldl_snoc.
  by apply dispatch_validSelection, IH.
Qed.

Lemma dispatchAll_validSelection_witness :
  validSelection userTable
    (dispatchAll userTable
       [RowCheckboxChange 2 true; HeaderClick 0; SelectAllChange true;
        RowCheckboxChange 1 false] initialState []).1.
Proof.
  apply (dispatchAll_validSelection userTable).
  intros i Hi. by apply elem_of_empty in Hi.
Defined.

Lemma allIndices_set_seq {A} (l : list A) :
  (list_to_set (imap (λ index _, index) l) : gset nat) = set_seq 0 (length l).
Proof.
  apply set_eq. intros i. rewrite elem_of_allIndices, elem_of_set_seq. lia.
Qed.

(** A selection inside the data has as many positions as the data has
    rows exactly when it holds them all. *)
Lemma validSelection_full {W} (props : DataTableProps W) st :
  validSelection props st →
  size (selectedRows st) = length (data props)
  ↔ ∀ i, i < length (data props) → i ∈ selectedRows st.
Proof.
  intros Hvalid.
  assert (selectedRows st ⊆ set_seq 0 (length (data props))) as Hsub.
  { intros i Hi. apply elem_of_set_seq. specialize (Hvalid i Hi). lia. }
  split.
  - intros Hsize i Hi.
    rewrite (set_subseteq_size_eq _ _ Hsub).
    + apply elem_of_set_seq. lia.
    + rewrite size_set_seq. lia.
  - intros Hall.
    assert (selectedRows st = set_seq 0 (length (data props))) as ->.
    { apply set_eq. intros i. split; [by apply Hsub|].
      rewrite elem_of_set_seq. intros [_ Hi]. by apply Hall. }
    by rewrite size_set_seq.
Qed.

Lemma render_table {W} (props : DataTableProps W) st :
  isTrue (loading props) = false → data props ≠ [] →
  render props st
  = TableView
      (if isTrue (selectable props)
       then Some (bool_decide (size (selectedRows st) = length (data props))
                  && bool_decide (0 < length (data props)))
       else None)
      (map (renderHeaderCell st) (columns props))
      (imap (renderRow props st) (sortedData props st)).
Proof.
  intros Hloading Hdata. unfold render. rewrite Hloading.
  rewrite bool_decide_eq_false_2; [done|].
  by destruct (data props).
Qed.

(** X8: in a selectable table whose selection lies inside the data, the
    select-all box in the header is ticked exactly when every row is
    selected. *)
Theorem selectAllCheckbox_checked {W} (props : DataTableProps W) st :
  validSelection props st →
  isTrue (selectable props) = true →
  isTrue (loading props) = false → data props ≠ [] →
  ∃ checked header body,
    render props st = TableView (Some checked) header body ∧
    (checked = true ↔ ∀ i, i < length (data props) → i ∈ selectedRows st).
Proof.
  intros Hvalid Hselectable Hloading Hdata.
  rewrite render_table by done. rewrite Hselectable.
  eexists _, _, _. split; [done|].
  rewrite <-validSelection_full by done.
  rewrite andb_true_iff, !bool_decide_eq_true.
  split; [by intros [? _] | intros Hsize; split; [done|]].
  destruct (data props); [done | simpl; lia].
Qed.

Lemma selectAllCheckbox_checked_witness :
  ∃ checked header body,
    render userTable (sortedBy None asc {[0; 1; 2]})
    = TableView (Some checked) header body ∧
    (checked = true
     ↔ ∀ i, i < length (data userTable)
            → i ∈ selectedRows (sortedBy None asc {[0; 1; 2]})).
Proof.
  apply (selectAllCheckbox_checked userTable (sortedBy None asc {[0; 1; 2]})).
  - intros i. simpl. rewrite !elem_of_union, !elem_of_singleton. lia.
  - reflexivity.
  - reflexivity.
  - discriminate.
Defined.

(** X9: after [selectAll(true)] the table shows the header box and every
    row box ticked and every row highlighted; after [selectAll(false)]
    none of them. *)
Theorem render_after_selectAll {W} (props : DataTableProps W) checked st w :
  isTrue (selectable props) = true →
  isTrue (loading props) = false → data props ≠ [] →
  ∃ header body,
    render props (handleSelectAll props checked st w).1
    = TableView (Some checked) header body ∧
    length body = length (data props) ∧
    Forall (λ row, rowCheckbox row = Some checked ∧ rowHighlighted row = checked)
      body.
Proof.
  intros Hselectable Hloading Hdata.
  rewrite render_table by done. rewrite Hselectable.
  assert (0 < length (data props)) as Hlen
    by (destruct (data props); [done | simpl; lia]).
  assert (bool_decide (size (selectedRows (handleSelectAll props checked st w).1)
                       = length (data props))
          && bool_decide (0 < length (data props)) = checked) as ->.
  { unfold handleSelectAll. destruct checked; cbn [fst selectedRows].
    - rewrite allIndices_set_seq, size_set_seq.
      by rewrite !bool_decide_eq_true_2.
    - rewrite bool_decide_eq_false_2; [done|]. rewrite size_empty. lia. }
  eexists _, _. split_and!; [done | |].
  - by rewrite length_imap, sortedData_length.
  - apply Forall_forall. intros row [i [shown [-> Hshown]]]%elem_of_lookup_imap.
    apply lookup_lt_Some in Hshown. rewrite sortedData_length in Hshown.
    unfold renderRow. simpl. rewrite Hselectable.
    unfold handleSelectAll. destruct checked; simpl.
    + rewrite bool_decide_eq_true_2; [done|]. by apply elem_of_allIndices.
    + rewrite bool_decide_eq_false_2; [done|]. apply not_elem_of_empty.
Qed.

Lemma render_after_selectAll_witness :
  ∃ header body,
    render userTable (handleSelectAll userTable true initialState []).1
    = TableView (Some true) header body ∧
    length body = length (data userTable) ∧
    Forall (λ row, rowCheckbox row = Some true ∧ rowHighlighted row = true) body.
Proof.
  apply (render_after_selectAll userTable true initialState []).
  - reflexivity.
  - reflexivity.
  - discriminate.
Defined.

Lemma filterFrom_all {A} (p : A → nat → bool) n (l : list A) :
  (∀ x i, n ≤ i < n + length l → p x i = true) → Host.filterFrom p n l = l.
Proof.
  revert n. induction l as [|x l IH]; intros n Hall; simpl; [done|].
  rewrite Hall by (simpl; lia). f_equal. apply IH.
  intros y i Hi. apply Hall. simpl. lia.
Qed.

Lemma filterFrom_none {A} (p : A → nat → bool) n (l : list A) :
  (∀ x i, n ≤ i → p x i = false) → Host.filterFrom p n l = [].
Proof.
  revert n. induction l as [|x l IH]; intros n Hnone; simpl; [done|].
  rewrite Hnone by lia. apply IH. intros y i Hi. apply Hnone. lia.
Qed.

Lemma handleSelectAll_selectedData {W} (props : DataTableProps W) checked st w :
  (handleSelectAll props checked st w).2
  = callOnRowSelect props
      (selectedData props (handleSelectAll props checked st w).1) w.
Proof.
  unfold handleSelectAll, selectedData, Host.filterWithIndex.
  destruct checked; cbn [fst snd selectedRows]; f_equal.
  - symmetry. apply filterFrom_all. intros _ i Hi.
    apply bool_decide_eq_true, elem_of_allIndices. lia.
  - symmetry. apply filterFrom_none. intros _ i _.
    apply bool_decide_eq_false, not_elem_of_empty.
Qed.

Lemma dispatch_callback_cases {W} (props : DataTableProps W) event st w :
  (dispatch props event st w).2
  = callOnRowSelect props (selectedData props (dispatch props event st w).1) w
  ∨ ((dispatch props event st w).2 = w ∧
     selectedRows (dispatch props event st w).1 = selectedRows st).
Proof.
  unfold dispatch. destruct (render props st); [by right.. |].
  destruct event as [i | checked | index checked].
  - right. destruct (columns props !! i) as [column|]; [|done].
    by destruct (isTrue (Column.sortable column)).
  - destruct (isTrue (selectable props)); [|by right].
    left. apply handleSelectAll_selectedData.
  - destruct (_ && _); [by left | by right].
Qed.

(** X10: whenever the table calls [onRowSelect] it passes the rows at the
    positions of the new selection, in data order; an interaction that
    does not call it leaves the selection as it was. *)
Theorem dispatch_reports_selection {W} (props : DataTableProps W) event st w :
  (dispatch props event st w).2
  = callOnRowSelect props (selectedData props (dispatch props event st w).1) w
  ∨ ((dispatch props event st w).2 = w ∧
     selectedRows (dispatch props event st w).1 = selectedRows st).
Proof. apply dispatch_callback_cases. Qed.

Lemma StronglySorted_lt_seq n len : StronglySorted lt (seq n len).
Proof.
  revert n. induction len as [|len IH]; intros n; simpl; constructor; [done|].
  apply Forall_forall. intros i Hi%elem_of_seq. lia.
Qed.

Lemma StronglySorted_filter {A} (R : relation A) (P : A → Prop)
    `{∀ x, Decision (P x)} (l : list A) :
  StronglySorted R l → StronglySorted R (filter P l).
Proof.
  induction 1 as [|x l Hsorted IH Hall]; [constructor|].
  rewrite filter_cons. case_decide; [|done].
  constructor; [done|]. rewrite Forall_forall in Hall.
  apply Forall_forall. intros y [_ Hy]%list_elem_of_filter. by apply Hall.
Qed.

Lemma selectedData_size {W} (props : DataTableProps W) st :
  validSelection props st →
  length (selectedData props st) = size (selectedRows st).
Proof.
  intros Hvalid.
  set (positions := filter (.∈ selectedRows st) (seq 0 (length (data props)))).
  assert (StronglySorted lt positions) as Hsorted
    by apply StronglySorted_filter, StronglySorted_lt_seq.
  assert (list_to_set positions = selectedRows st) as Hset.
  { apply set_eq. intros i. unfold positions.
    rewrite elem_of_list_to_set, list_elem_of_filter, elem_of_seq.
    split; [by intros [? _] | intros Hi; split; [done|]].
    specialize (Hvalid i Hi). lia. }
  unfold selectedData.
  rewrite (filterWithIndex_positions _ _ positions) by done.
  rewrite <-Hset, size_list_to_set by apply NoDup_filter, NoDup_seq.
  assert (Forall (λ p, p < length (data props)) positions) as Hrange.
  { apply Forall_forall. unfold positions.
    intros p [_ Hp%elem_of_seq]%list_elem_of_filter. lia. }
  clear -Hrange. induction Hrange as [|p positions Hp _ IH]; csimpl; [done|].
  destruct (lookup_lt_is_Some_2 _ _ Hp) as [row ->]. simpl. by rewrite IH.
Qed.

(** X11: for a selection inside the data the payload has one row per
    selected position. *)
Theorem selectedData_length {W} (props : DataTableProps W) st :
  validSelection props st →
  length (selectedData props st) = size (selectedRows st).
Proof. apply selectedData_size. Qed.

Lemma selectedData_length_witness :
  length (selectedData userTable (sortedBy None asc {[0; 2]}))
  = size (selectedRows (sortedBy None asc {[0; 2]})).
Proof.
  apply (selectedData_length userTable (sortedBy None asc {[0; 2]})).
  intros i. simpl. rewrite elem_of_union, !elem_of_singleton. lia.
Defined.

(** X12: ticking a row and unticking it again is a round trip: on a row
    that was not selected, select then deselect restores the state of the
    table, and the second call reports the rows reported before the
    two; ticking twice is the same as ticking once. *)
Theorem handleSelectRow_round_trip {W} (props : DataTableProps W) index st w w' :
  index ∉ selectedRows st →
  (handleSelectRow props index false
     (handleSelectRow props index true st w).1 w').1 = st ∧
  (handleSelectRow props index false
     (handleSelectRow props index true st w).1 w').2
  = callOnRowSelect props (selectedData props st) w' ∧
  (handleSelectRow props index true
     (handleSelectRow props index true st w).1 w').1
  = (handleSelectRow props index true st w).1.
Proof.
  intros Hindex.
  assert (({[index]} ∪ selectedRows st) ∖ {[index]} = selectedRows st) as Hback.
  { apply set_eq. intros i.
    rewrite elem_of_difference, elem_of_union, elem_of_singleton.
    split; [by intros [[-> | ?] ?] | intros Hi; split; [by right|]].
    by intros ->. }
  assert ({[index]} ∪ ({[index]} ∪ selectedRows st) = {[index]} ∪ selectedRows st)
    as Htwice.
  { by rewrite (assoc_L (∪)), (idemp_L (∪)). }
  destruct st as [selected config]. unfold handleSelectRow, selectedData.
  cbn [fst snd selectedRows sortConfig] in *.
  by rewrite Hback, Htwice.
Qed.

Lemma handleSelectRow_round_trip_witness :
  (handleSelectRow userTable 1 false
     (handleSelectRow userTable 1 true (sortedBy None asc {[0]}) []).1 []).1
  = sortedBy None asc {[0]}.
Proof.
  apply (handleSelectRow_round_trip userTable 1 (sortedBy None asc {[0]}) [] []).
  simpl. rewrite elem_of_singleton. lia.
Defined.

Lemma filterFrom_delete {A} (P : gset nat) (skip n : nat) (l : list A) :
  n ≤ skip →
  (∀ i, n ≤ i < n + length l → i ∈ P ↔ i ≠ skip) →
  Host.filterFrom (λ _ i, bool_decide (i ∈ P)) n l = delete (skip - n) l.
Proof.
  revert n. induction l as [|x l IH]; intros n Hn HP; [done|].
  cbn [Host.filterFrom]. destruct (decide (skip = n)) as [-> | Hne].
  - rewrite bool_decide_eq_false_2.
    2:{ rewrite HP by (simpl; lia). by intros []. }
    rewrite Nat.sub_diag. simpl. apply filterFrom_all. intros _ i Hi.
    apply bool_decide_eq_true. rewrite HP by (simpl; lia). lia.
  - rewrite bool_decide_eq_true_2.
    2:{ rewrite HP by (simpl; lia). lia. }
    replace (skip - n) with (S (skip - S n)) by lia. simpl. f_equal.
    apply IH; [lia|]. intros i Hi. apply HP. simpl. lia.
Qed.

(** X13: [selectAll(true)] followed by unticking the row at one position
    reports the data without the row at that position, the rest in data
    order. *)
Theorem deselect_after_selectAll {W} (props : DataTableProps W) index st w w' :
  (handleSelectRow props index false
     (handleSelectAll props true st w).1 w').2
  = callOnRowSelect props (delete index (data props)) w'.
Proof.
  unfold handleSelectRow, handleSelectAll. cbn [fst snd selectedRows].
  f_equal. unfold Host.filterWithIndex.
  rewrite (filterFrom_delete _ index) by
    (lia || (intros i Hi; rewrite elem_of_difference, elem_of_allIndices,
               elem_of_singleton; split; [by intros [_ ?] | intros; split; [lia | done]])).
  by rewrite Nat.sub_0_r.
Qed.

Lemma filterFrom_single {A} (target n : nat) (l : list A) row :
  n ≤ target → l !! (target - n) = Some row →
  Host.filterFrom (λ _ i, bool_decide (i ∈ ({[target]} ∪ ∅ : gset nat))) n l
  = [row].
Proof.
  revert n. induction l as [|x l IH]; intros n Hn Hrow; [done|].
  cbn [Host.filterFrom]. destruct (decide (target = n)) as [-> | Hne].
  - rewrite bool_decide_eq_true_2
      by (rewrite elem_of_union, elem_of_singleton; by left).
    rewrite Nat.sub_diag in Hrow. simpl in Hrow. simplify_eq. f_equal.
    apply filterFrom_none. intros _ i Hi. apply bool_decide_eq_false.
    rewrite elem_of_union, elem_of_singleton, elem_of_empty. lia.
  - rewrite bool_decide_eq_false_2
      by (rewrite elem_of_union, elem_of_singleton, elem_of_empty; lia).
    replace (target - n) with (S (target - S n)) in Hrow by lia.
    apply IH; [lia | done].
Qed.

(** X14: selection goes by position in the data, not in the display:
    ticking the box of the [index]-th displayed row of a table with nothing
    selected reports the row at position [index] of the data, whatever the
    sort order, while the row that shows as ticked and highlighted is the
    [index]-th row of the sorted data. *)
Theorem selection_is_positional {W} (props : DataTableProps W) index st w reported shown :
  selectedRows st = ∅ →
  isTrue (loading props) = false →
  data props !! index = Some reported →
  sortedData props st !! index = Some shown →
  (handleSelectRow props index true st w).2
  = callOnRowSelect props [reported] w ∧
  ∃ box header body,
    render props (handleSelectRow props index true st w).1
    = TableView box header body ∧
    body !! index
    = Some {| rowKey := index; rowHighlighted := true;
              rowCheckbox := if isTrue (selectable props) then Some true else None;
              rowCells := map (renderCell shown) (columns props) |}.
Proof.
  intros Hempty Hloading Hreported Hshown. split.
  - unfold handleSelectRow. cbn [snd]. f_equal. rewrite Hempty.
    apply filterFrom_single; [lia | by rewrite Nat.sub_0_r].
  - rewrite render_table; [|done | by destruct (data props)].
    eexists _, _, _. split; [done|].
    rewrite list_lookup_imap.
    assert (sortedData props (handleSelectRow props index true st w).1
            = sortedData props st) as -> by done.
    rewrite Hshown. simpl. unfold renderRow. simpl.
    rewrite !bool_decide_eq_true_2
      by (rewrite elem_of_union, elem_of_singleton; by left).
    done.
Qed.

Lemma selection_is_positional_witness :
  (handleSelectRow userTable 0 true (sortedBy (Some "name") asc ∅) []).2
  = [[record [("id", num 1); ("name", JS.Str "B")]]] ∧
  ∃ box header body,
    render userTable
      (handleSelectRow userTable 0 true (sortedBy (Some "name") asc ∅) []).1
    = TableView box header body ∧
    body !! 0
    = Some {| rowKey := 0; rowHighlighted := true; rowCheckbox := Some true;
              rowCells := map (renderCell (record [("id", num 2); ("name", JS.Str "A")]))
                            (columns userTable) |}.
Proof.
  apply (selection_is_positional userTable 0 (sortedBy (Some "name") asc ∅) []
           (record [("id", num 1); ("name", JS.Str "B")])
           (record [("id", num 2); ("name", JS.Str "A")])).
  - reflexivity.
  - reflexivity.
  - reflexivity.
  - by vm_compute.
Defined.

(** X15: sorting and selecting do not interfere: a click on a header never
    calls [onRowSelect] and never changes the selection; ticking a box
    never changes the sort configuration or the order of the displayed
    rows. *)
Theorem sort_and_selection_independent {W} (props : DataTableProps W) event st w :
  match event with
  | HeaderClick _ =>
      (dispatch props event st w).2 = w ∧
      selectedRows (dispatch props event st w).1 = selectedRows st
  | _ =>
      sortConfig (dispatch props event st w).1 = sortConfig st ∧
      sortedData props (dispatch props event st w).1 = sortedData props st
  end.
Proof.
  unfold dispatch.
  destruct event as [i | checked | index checked];
    destruct (render props st); try done.
  - destruct (columns props !! i) as [column|]; [|done].
    by destruct (isTrue (Column.sortable column)).
  - unfold handleSelectAll.
    by destruct (isTrue (selectable props)), checked.
  - by destruct (_ && _).
Qed.

Lemma is_Some_if {A} (b : bool) (x : A) :
  is_Some (if b then Some x else None) ↔ b = true.
Proof. destruct b; split; [done | by eauto | by intros [] | done]. Qed.

(** X16: the populated table has one header cell per column and one body
    row per row of the data; the [i]-th body row has key [i] and one cell
    per column, rendered from the [i]-th row of the sorted data, and it
    has a box exactly when the table is selectable. *)
Theorem render_table_shape {W} (props : DataTableProps W) st :
  isTrue (loading props) = false → data props ≠ [] →
  ∃ box header body,
    render props st = TableView box header body ∧
    (is_Some box ↔ isTrue (selectable props) = true) ∧
    length header = length (columns props) ∧
    length body = length (data props) ∧
    ∀ i row, body !! i = Some row →
      rowKey row = i ∧
      length (rowCells row) = length (columns props) ∧
      (is_Some (rowCheckbox row) ↔ isTrue (selectable props) = true) ∧
      ∃ shown, sortedData props st !! i = Some shown ∧
        rowCells row = map (renderCell shown) (columns props).
Proof.
  intros Hloading Hdata. rewrite render_table by done.
  eexists _, _, _. split; [done|].
  split; [apply is_Some_if|]. split; [by rewrite length_map|].
  split; [by rewrite length_imap, sortedData_length|].
  intros i row. rewrite list_lookup_imap.
  destruct (sortedData props st !! i) as [shown|] eqn:Hshown; [|done].
  intros [= <-]. unfold renderRow. simpl.
  split; [done|]. split; [by rewrite length_map|].
  split; [apply is_Some_if | by exists shown].
Qed.

Lemma render_table_shape_witness :
  ∃ box header body,
    render userTable initialState = TableView box header body ∧
    (is_Some box ↔ isTrue (selectable userTable) = true) ∧
    length header = length (columns userTable) ∧
    length body = length (data userTable) ∧
    ∀ i row, body !! i = Some row →
      rowKey row = i ∧
      length (rowCells row) = length (columns userTable) ∧
      (is_Some (rowCheckbox row) ↔ isTrue (selectable userTable) = true) ∧
      ∃ shown, sortedData userTable initialState !! i = Some shown ∧
        rowCells row = map (renderCell shown) (columns userTable).
Proof.
  apply (render_table_shape userTable initialState).
  - reflexivity.
  - discriminate.
Defined.

(** ** The callers: the demo application and the interactive story *)

Lemma callOnRowSelect_setSelectedUsers event st selected :
  (dispatch App.tableProps event st selected).2
  = selectedData App.tableProps (dispatch App.tableProps event st selected).1
  ∨ ((dispatch App.tableProps event st selected).2 = selected ∧
     selectedRows (dispatch App.tableProps event st selected).1 = selectedRows st).
Proof. apply (dispatch_callback_cases App.tableProps). Qed.

Lemma App_step_invariant s event :
  validSelection App.tableProps (App.table s) →
  App.selectedUsers s = selectedData App.tableProps (App.table s) →
  validSelection App.tableProps (App.table (App.step s event)) ∧
  App.selectedUsers (App.step s event)
  = selectedData App.tableProps (App.table (App.step s event)).
Proof.
  intros Hvalid Hsync. destruct event as [field value | e]; [done|].
  unfold App.step.
  pose proof (dispatch_validSelection App.tableProps e (App.table s)
                (App.selectedUsers s) Hvalid) as Hvalid'.
  pose proof (callOnRowSelect_setSelectedUsers e (App.table s)
                (App.selectedUsers s)) as Hcall.
  destruct (dispatch App.tableProps e (App.table s) (App.selectedUsers s))
    as [t selected]. simpl in *.
  split; [done|]. destruct Hcall as [-> | [-> Hsame]]; [done|].
  rewrite Hsync. unfold selectedData. by rewrite Hsame.
Qed.

(** X17: in the demo application the list of selected users always is the
    rows at the ticked positions of the table, in data order, and the banner
    shows their number exactly when at least one row is ticked; typing in
    the form changes neither. *)
Theorem App_selection_in_sync events :
  App.selectedUsers (App.run events)
  = selectedData App.tableProps (App.table (App.run events)) ∧
  App.banner (App.run events)
  = (if decide (selectedRows (App.table (App.run events)) = ∅) then None
     else Some (size (selectedRows (App.table (App.run events))))) ∧
  ∀ field value,
    App.selectedUsers (App.step (App.run events) (App.InputChange field value))
    = App.selectedUsers (App.run events) ∧
    App.table (App.step (App.run events) (App.InputChange field value))
    = App.table (App.run events).
Proof.
  assert (validSelection App.tableProps (App.table (App.run events)) ∧
          App.selectedUsers (App.run events)
          = selectedData App.tableProps (App.table (App.run events)))
    as [Hvalid Hsync].
  { unfold App.run. induction events as [|event events IH] using rev_ind.
    - split; [|done]. intros i Hi. by apply elem_of_empty in Hi.
    - rewrite foldl_snoc. destruct IH. by apply App_step_invariant. }
  split; [done|]. split; [|done].
  unfold App.banner. rewrite Hsync, selectedData_size by done.
  case_decide as Hempty.
  - rewrite Hempty, size_empty. by rewrite bool_decide_eq_false_2 by lia.
  - rewrite bool_decide_eq_true_2; [done|].
    assert (size (selectedRows (App.table (App.run events))) ≠ 0); [|lia].
    intros Hzero%size_empty_inv. by apply leibniz_equiv in Hzero.
Qed.

Lemma filterFrom_ext_lookup {A} (p p' : A → nat → bool) n (l : list A) :
  (∀ i x, l !! i = Some x → p x (n + i) = p' x (n + i)) →
  Host.filterFrom p n l = Host.filterFrom p' n l.
Proof.
  revert n. induction l as [|x l IH]; intros n Hext; simpl; [done|].
  rewrite <-(Nat.add_0_r n) at 1 3. rewrite (Hext 0 x) by done.
  rewrite Nat.add_0_r. rewrite (IH (S n)); [done|].
  intros i y Hi. rewrite Nat.add_succ_comm. by apply (Hext (S i)).
Qed.

Lemma elem_of_filterFrom_2 {A} (p : A → nat → bool) n (l : list A) i x :
  l !! i = Some x → p x (n + i) = true → x ∈ Host.filterFrom p n l.
Proof.
  revert n i. induction l as [|y l IH]; intros n i Hi Hp; [done|].
  destruct i as [|i]; simpl in *.
  - simplify_eq. rewrite Nat.add_0_r in Hp. rewrite Hp. left.
  - rewrite <-Nat.add_succ_comm in Hp. destruct (p y n); [right|]; by eapply IH.
Qed.

(** X18: when the users have pairwise different ids and the selected users
    are the rows at the ticked positions, [Delete Selected] removes
    exactly the rows at the ticked positions, keeps the others in order
    and empties the list of selected users. *)
Theorem handleDeleteSelected_removes_ticked (s : InteractiveExample.State) :
  NoDup (columnValues "id" (InteractiveExample.users s)) →
  InteractiveExample.selectedUsers s
  = selectedData (InteractiveExample.tableProps s) (InteractiveExample.table s) →
  InteractiveExample.users (InteractiveExample.handleDeleteSelected s)
  = Host.filterWithIndex
      (λ _ i, bool_decide (i ∉ selectedRows (InteractiveExample.table s)))
      (InteractiveExample.users s) ∧
  InteractiveExample.selectedUsers (InteractiveExample.handleDeleteSelected s) = [].
Proof.
  intros Hids Hsync. split; [|done].
  unfold InteractiveExample.handleDeleteSelected. cbn [InteractiveExample.users].
  unfold Host.filterWithIndex. apply filterFrom_ext_lookup. intros i x Hi. simpl.
  rewrite Hsync. unfold selectedData, Host.filterWithIndex. simpl.
  destruct (decide (i ∈ selectedRows (InteractiveExample.table s))) as [Hsel | Hsel].
  - rewrite (bool_decide_eq_false_2 (i ∉ _)) by auto.
    rewrite bool_decide_eq_true_2; [done|].
    apply list_elem_of_fmap. exists x. split; [done|].
    apply (elem_of_filterFrom_2 _ 0 _ i); [done|]. by apply bool_decide_eq_true.
  - rewrite (bool_decide_eq_true_2 (i ∉ _)) by done.
    rewrite bool_decide_eq_false_2; [done|].
    intros (y & Hid & (j & Hj & Hp)%elem_of_filterFrom)%list_elem_of_fmap.
    apply bool_decide_eq_true in Hp. simpl in Hp.
    assert (i = j) as ->; [|done].
    apply (NoDup_lookup _ i j (get x "id") Hids); unfold columnValues;
      rewrite list_lookup_fmap; [by rewrite Hi | by rewrite Hj, Hid].
Qed.

Lemma handleDeleteSelected_removes_ticked_witness :
  InteractiveExample.users
    (InteractiveExample.handleDeleteSelected InteractiveExample.johnTicked)
  = Host.filterWithIndex
      (λ _ i, bool_decide
                (i ∉ selectedRows (InteractiveExample.table InteractiveExample.johnTicked)))
      (InteractiveExample.users InteractiveExample.johnTicked) ∧
  InteractiveExample.selectedUsers
    (InteractiveExample.handleDeleteSelected InteractiveExample.johnTicked) = [].
Proof.
  apply (handleDeleteSelected_removes_ticked InteractiveExample.johnTicked).
  - apply (bool_decide_unpack _). by vm_compute.
  - by vm_compute.
Defined.

(** X19: deleting does not reset the table: its selection still holds the
    old positions, so a row that moved into a ticked position shows as
    ticked although the list of selected users is empty. *)
Theorem selection_survives_delete (s : InteractiveExample.State) i :
  i ∈ selectedRows (InteractiveExample.table s) →
  i < length (InteractiveExample.users (InteractiveExample.handleDeleteSelected s)) →
  InteractiveExample.selectedUsers (InteractiveExample.handleDeleteSelected s) = [] ∧
  ∃ box header body row,
    render (InteractiveExample.tableProps (InteractiveExample.handleDeleteSelected s))
      (InteractiveExample.table (InteractiveExample.handleDeleteSelected s))
    = TableView box header body ∧
    body !! i = Some row ∧
    rowCheckbox row = Some true ∧ rowHighlighted row = true.
Proof.
  intros Hsel Hi. split; [done|].
  assert (InteractiveExample.table (InteractiveExample.handleDeleteSelected s)
          = InteractiveExample.table s) as Htable by done.
  revert Hi Htable. generalize (InteractiveExample.handleDeleteSelected s).
  intros s' Hi Htable. rewrite Htable.
  assert (data (InteractiveExample.tableProps s') = InteractiveExample.users s')
    as Hdata by done.
  rewrite render_table; [|done |].
  2:{ rewrite Hdata. intros Hnil. rewrite Hnil in Hi. simpl in Hi. lia. }
  destruct (lookup_lt_is_Some_2
              (sortedData (InteractiveExample.tableProps s')
                 (InteractiveExample.table s)) i) as [shown Hshown].
  { by rewrite sortedData_length, Hdata. }
  eexists _, _, _, _. split; [done|].
  rewrite list_lookup_imap, Hshown. simpl.
  split; [done|]. simpl. by rewrite !bool_decide_eq_true_2.
Qed.

Lemma selection_survives_delete_witness :
  InteractiveExample.selectedUsers
    (InteractiveExample.handleDeleteSelected InteractiveExample.johnTicked) = [] ∧
  ∃ box header body row,
    render
      (InteractiveExample.tableProps
         (InteractiveExample.handleDeleteSelected InteractiveExample.johnTicked))
      (InteractiveExample.table
         (InteractiveExample.handleDeleteSelected InteractiveExample.johnTicked))
    = TableView box header body ∧
    body !! 0 = Some row ∧
    rowCheckbox row = Some true ∧ rowHighlighted row = true.
Proof.
  apply (selection_survives_delete InteractiveExample.johnTicked 0).
  - simpl. by apply elem_of_singleton.
  - vm_compute. lia.
Defined.

(** ** The text input and the registration form *)

(** X20: the field shows a password as text only when its type is
    [password], the toggle is enabled and the toggle is on; a field of
    another type keeps its type; two clicks on the toggle restore the
    state. *)
Theorem inputType_password {W} (props : InputField.Props W) st :
  (InputField.typeOf props = "password" →
   (InputField.inputType props st = "text"
    ↔ isTrue (InputField.showPasswordToggle props) = true
      ∧ InputField.showPassword st = true) ∧
   (InputField.inputType props st ≠ "text" →
    InputField.inputType props st = "password")) ∧
  (InputField.typeOf props ≠ "password" →
   InputField.inputType props st = InputField.typeOf props) ∧
  InputField.handlePasswordToggle (InputField.handlePasswordToggle st) = st.
Proof.
  unfold InputField.inputType. split; [|split].
  - intros ->. simpl.
    destruct (isTrue _), (InputField.showPassword st); simpl;
      (split; [split; [done || by intros [? ?] | done || by intros [? ?]] | done]).
  - intros Htype. apply String.eqb_neq in Htype. by rewrite Htype.
  - destruct st as [shown focused]. unfold InputField.handlePasswordToggle.
    simpl. by rewrite negb_involutive.
Qed.

(** X21: the clear button shows only on a clearable field that holds text
    and is neither loading nor disabled; in a field that keeps its own
    text a click on it empties the text, and the button is gone. *)
Theorem clear_button (args : InputField.Props string) text st :
  InputField.viewClearButton
    (InputField.render (InputField.withState args text) st) = true →
  (isTrue (InputField.clearable args) = true ∧ text ≠ "" ∧
   isTrue (InputField.loading args) = false ∧
   isTrue (InputField.disabled args) = false) ∧
  InputField.handleClear (InputField.withState args text) text = "" ∧
  InputField.viewValue
    (InputField.render
       (InputField.withState args
          (InputField.handleClear (InputField.withState args text) text)) st) = "" ∧
  InputField.viewClearButton
    (InputField.render
       (InputField.withState args
          (InputField.handleClear (InputField.withState args text) text)) st)
  = false.
Proof.
  simpl. rewrite !andb_true_iff, !negb_true_iff. intros [[[Hclear Htext] Hload] Hdis].
  split_and!; try done.
  - intros ->. simpl in Htext. done.
  - by rewrite Hclear.
Qed.

Lemma clear_button_witness :
  InputField.handleClear
    (InputField.withState
       (InputField.mkProps None None None None None None None None None None
          (Some true) None) "abc") "abc" = "".
Proof.
  apply (clear_button
           (InputField.mkProps None None None None None None None None None None
              (Some true) None) "abc" InputField.initialState).
  reflexivity.
Defined.

Lemma includes_at s : includes s "@" = true ↔ "@"%char ∈ list_ascii_of_string s.
Proof.
  induction s as [|c s IH]; cbn [includes String.prefix list_ascii_of_string].
  - split; [done | by intros ?%elem_of_nil].
  - rewrite orb_true_iff, IH, elem_of_cons.
    destruct (ascii_dec "@" c) as [<- | Hne].
    + split; intros _; left; [done | by destruct s].
    + split; (intros [? | ?]; [done | by right]).
Qed.

(** X22: the email field of the registration form is invalid exactly when
    the email is non-empty and holds no [@]; it then shows the message
    "Please enter a valid email" as an error, and otherwise shows no
    message.  It shows its clear button when the email is non-empty, and a
    click on it empties the email and removes the error. *)
Theorem email_validation (s : App.State) st :
  (isTrue (InputField.invalid (AppForm.emailField s)) = true
   ↔ ∃ email, App.formData s !! "email" = Some email ∧ email ≠ "" ∧
       "@"%char ∉ list_ascii_of_string email) ∧
  InputField.viewFooter (InputField.render (AppForm.emailField s) st)
  = (if isTrue (InputField.invalid (AppForm.emailField s))
     then Some ("Please enter a valid email", true) else None) ∧
  App.formData (InputField.handleClear (AppForm.emailField s) s) !! "email"
  = Some "" ∧
  isTrue (InputField.invalid
            (AppForm.emailField (InputField.handleClear (AppForm.emailField s) s)))
  = false.
Proof.
  change (isTrue (InputField.invalid (AppForm.emailField s)))
    with (AppForm.emailInvalid s).
  split; [|split; [|split]].
  - unfold AppForm.emailInvalid, AppForm.emailOf, InputField.given.
    destruct (App.formData s !! "email") as [email|];
      cbn [from_option id JS.ToBoolean andb].
    + rewrite andb_true_iff, !negb_true_iff.
      rewrite <-(not_true_iff_false (includes email "@")), includes_at.
      rewrite String.eqb_neq. split.
      * intros [Hne Hat]. by exists email.
      * by intros (? & [= <-] & Hne & Hat).
    + split; [done | by intros (? & ? & _)].
  - unfold InputField.render, AppForm.emailField.
    cbn [InputField.viewFooter InputField.helperText InputField.errorMessage
         InputField.given orb from_option id].
    by destruct (AppForm.emailInvalid s).
  - unfold InputField.handleClear, AppForm.emailField, App.handleInputChange.
    cbn [InputField.onChange App.formData]. by rewrite lookup_insert_eq.
  - change (AppForm.emailInvalid
              (InputField.handleClear (AppForm.emailField s) s) = false).
    unfold AppForm.emailInvalid, AppForm.emailOf.
    unfold InputField.handleClear, AppForm.emailField, App.handleInputChange.
    cbn [InputField.onChange App.formData]. by rewrite lookup_insert_eq.
Qed.
